(** * Live-stream label monitor: text extraction, duplicate check and capture store

    A shallow embedding of [LiveMonitor] from [app.py]: the trigger check
    ([check_trigger]), the record extractor ([extract_all_products]), the
    duplicate check ([is_duplicate]), the capture store ([save_screenshot])
    and the per-frame loop of [run_once].

    Python strings are sequences of Unicode code points; the character
    classes the [re] module and [str.lower] consult are the interpreter's
    Unicode tables, which the development takes as an interface
    ([Unicode]) and instantiates on the ASCII range for the worked
    examples. *)

From Stdlib Require Import ZArith NArith List Bool Ascii String Lia.
From Stdlib Require Import DecimalString.
From stdpp Require Import base decidable option list countable gmap.

Local Open Scope Z_scope.

(** ** Strings *)

(** A code point and a Python [str]. *)
Abbreviation char := N (only parsing).
Abbreviation str := (list N) (only parsing).

(** A string literal of the source, as code points (ASCII literals only). *)
Definition cp (s : string) : str :=
  List.map N_of_ascii (list_ascii_of_string s).

(** The interpreter's Unicode tables, as far as this program consults them. *)
Class Unicode := {
  lower : str -> str;        (* str.lower() *)
  isdigit : char -> bool;    (* the class \d *)
  isword : char -> bool;     (* the class \w, which \b is defined from *)
  isspace : char -> bool;    (* the class \s *)
  digit_val : char -> Z;     (* the decimal value int() gives a digit *)
}.

(** The tables restricted to the ASCII range: on ASCII text they are the
    interpreter's. *)
Definition in_range (lo hi c : N) : bool := ((lo <=? c) && (c <=? hi))%N.

Definition ascii_lower_char (c : char) : char :=
  if in_range 65 90 c then (c + 32)%N else c.

Definition ascii_isdigit (c : char) : bool := in_range 48 57 c.

Definition ascii_isword (c : char) : bool :=
  in_range 48 57 c || in_range 65 90 c || in_range 97 122 c || (c =? 95)%N.

Definition ascii_isspace (c : char) : bool :=
  in_range 9 13 c || in_range 28 32 c.

#[global] Instance ascii_tables : Unicode := {|
  lower := List.map ascii_lower_char;
  isdigit := ascii_isdigit;
  isword := ascii_isword;
  isspace := ascii_isspace;
  digit_val := fun c => Z.of_N c - 48;
|}.

(** [p] is a prefix of [s] ([s.startswith(p)]). *)
Fixpoint starts_with (p s : str) : bool :=
  match p, s with
  | [], _ => true
  | _ :: _, [] => false
  | a :: p', b :: s' => (a =? b)%N && starts_with p' s'
  end.

(** [needle in s]. *)
Fixpoint str_in (needle s : str) : bool :=
  starts_with needle s ||
  match s with
  | [] => false
  | _ :: s' => str_in needle s'
  end.

(** [s.find(needle)]: the lowest index where [needle] occurs, or -1. *)
Fixpoint find_from (needle s : str) (i : Z) : Z :=
  if starts_with needle s then i
  else match s with
       | [] => -1
       | _ :: s' => find_from needle s' (i + 1)
       end.

Definition str_find (s needle : str) : Z := find_from needle s 0.

(** [len(s)] as a Python int. *)
Definition len {A} (s : list A) : Z := Z.of_nat (length s).

(** The slices [s[a:]] and [s[:b]], with Python's treatment of negative and
    out-of-range bounds. *)
Definition slice_bound {A} (s : list A) (a : Z) : nat :=
  Z.to_nat (Z.min (len s) (if a <? 0 then Z.max 0 (len s + a) else a)).

Definition slice_from {A} (s : list A) (a : Z) : list A := drop (slice_bound s a) s.
Definition slice_to {A} (s : list A) (b : Z) : list A := take (slice_bound s b) s.

(** [sep.join(parts)]. *)
Fixpoint join (sep : str) (parts : list str) : str :=
  match parts with
  | [] => []
  | [p] => p
  | p :: rest => p ++ sep ++ join sep rest
  end.

(** ** The regular expressions of the extractor

    [re.findall] with one capture group scans left to right; at each
    position it tries the pattern, and after a match resumes at the end of
    the match.  None of the three patterns matches the empty string.  A
    matcher gets the character before the position (for [\b]) and the rest
    of the text, and returns the captured group with the length of the whole
    match. *)
Section Regex.
Context `{Unicode}.

Definition matcher := option N -> list N -> option (list N * nat).

Fixpoint findall_from (m : matcher) (prev : option N) (skip : nat) (s : str)
  : list str :=
  match s with
  | [] => []
  | c :: rest =>
      match skip with
      | S k => findall_from m (Some c) k rest
      | O =>
          match m prev s with
          | Some (g, n) => g :: findall_from m (Some c) (Nat.pred n) rest
          | None => findall_from m (Some c) 0 rest
          end
      end
  end.

Definition findall (m : matcher) (s : str) : list str :=
  findall_from m None 0 s.

(** [\b]: exactly one of the two neighbours is a word character; outside
    the text counts as a non-word character. *)
Definition word_at (c : option N) : bool :=
  match c with Some c => isword c | None => false end.

Definition boundary (before after : option N) : bool :=
  xorb (word_at before) (word_at after).

(** The longest run of characters of a class at the head of the text. *)
Fixpoint span (p : N -> bool) (s : str) : nat :=
  match s with
  | c :: rest => if p c then S (span p rest) else 0%nat
  | [] => 0%nat
  end.

(** The greedy [\d{1,4}] followed by [\b]: the longest count first, then
    backtracking one digit at a time. *)
Fixpoint digits_then_boundary (k : nat) (s : str) : option (str * nat) :=
  match k with
  | O => None
  | S k' =>
      if boundary (last (take k s)) (head (drop k s))
      then Some (take k s, k)
      else digits_then_boundary k' s
  end.

(** [\b(\d{1,4})\b] *)
Definition number_token : matcher := fun prev s =>
  if boundary prev (head s)
  then digits_then_boundary (Nat.min 4 (span isdigit s)) s
  else None.

(** [(\d+)] at the end of a pattern: the whole run of digits. *)
Definition digits1 (s : str) : option (str * nat) :=
  match span isdigit s with
  | O => None
  | n => Some (take n s, n)
  end.

(** The greedy [\s*] or [\s+] followed by [(\d+)]: the longest run of
    spaces first, then backtracking down to [least] spaces. *)
Fixpoint spaces_then_digits (least k : nat) (s : str) : option (str * nat) :=
  match digits1 (drop k s) with
  | Some (g, n) => Some (g, (k + n)%nat)
  | None =>
      match k with
      | O => None
      | S k' => if (least <=? k')%nat then spaces_then_digits least k' s else None
      end
  end.

Definition one_of (cs : list N) (c : N) : bool :=
  existsb (N.eqb c) cs.

(** [[Ii][Dd]] at the head of the text; the remainder on success. *)
Definition id_letters (s : str) : option str :=
  match s with
  | a :: b :: rest =>
      if one_of [73; 105]%N a && one_of [68; 100]%N b then Some rest else None
  | _ => None
  end.

Definition shift (n : nat) (r : option (str * nat)) : option (str * nat) :=
  match r with Some (g, m) => Some (g, (n + m)%nat) | None => None end.

(** [[Ii][Dd][：:]\s*(\d+)]: the full-width colon is U+FF1A. *)
Definition id_colon : matcher := fun _ s =>
  match id_letters s with
  | Some (c :: rest) =>
      if one_of [65306; 58]%N c
      then shift 3 (spaces_then_digits 0 (span isspace rest) rest)
      else None
  | _ => None
  end.

(** [[Ii][Dd]\s+(\d+)] *)
Definition id_space : matcher := fun _ s =>
  match id_letters s with
  | Some rest =>
      match span isspace rest with
      | O => None
      | k => shift 2 (spaces_then_digits 1 k rest)
      end
  | None => None
  end.

(** [int(s)] on a string of decimal digits.  [int] also accepts signs,
    surrounding white space and underscores; the extractor only passes
    captures of [\d{1,4}], so those forms are not reached and are given
    the [ValueError] outcome here. *)
Definition int_digits (s : str) : Z :=
  fold_left (fun acc c => 10 * acc + digit_val c) s 0.

Definition py_int (s : str) : option Z :=
  match s with
  | [] => None
  | _ => if forallb isdigit s then Some (int_digits s) else None
  end.

End Regex.

(** ** The record extractor *)

(** [ProductInfo].  The dataclass declares six fields; [run_once] also sets
    an attribute [style_category] on the instance when a classifier is
    attached, which is absent ([None]) when the record is created. *)
Record ProductInfo := {
  product_id : str;
  serial_number : str;
  label_date : str;
  raw_text : str;
  timestamp : str;
  filepath : str;
  style_category : option str;
}.

Definition unknown : str := cp "unknown".

(** The two readings of [datetime.now()] of one call of the extractor,
    already formatted: ["%Y%m%d_%H%M%S"] and ["%m-%d"]. *)
Record Clock := {
  now_timestamp : str;
  now_date : str;
}.

Definition serial_keywords : list str := [cp "mtk"; cp "yeye"].

Section Extract.
Context `{Unicode}.

(** [re.findall(r'\b(\d{1,4})\b', s)] *)
Definition numbers (s : str) : list str := findall number_token s.

(** Both ID patterns over the space-joined text, the matches of the first
    pattern before those of the second. *)
Definition id_patterns : list matcher := [id_colon; id_space].

Definition all_ids (full_text : str) : list str :=
  fold_left (fun acc pattern => acc ++ findall pattern full_text) id_patterns [].

(** The order-preserving removal of duplicates, with its [seen] set. *)
Definition dedup_step (st : gset str * list str) (id_val : str)
  : gset str * list str :=
  let '(seen_ids, unique_ids) := st in
  if decide (id_val ∈ seen_ids) then st
  else ({[id_val]} ∪ seen_ids, unique_ids ++ [id_val]).

Definition unique_ids (lines : list str) : list str :=
  snd (fold_left dedup_step (all_ids (join (cp " ") lines)) (∅, [])).

(** The body of the keyword loop for one line and one marker keyword:
    the number it appends before [break], or [None] when it falls through
    to the next keyword. *)
Definition try_keyword (lines : list str) (i : nat) (line serial_keyword : str)
  : option str :=
  let line_lower := lower line in
  if str_in serial_keyword line_lower then
    let keyword_pos := str_find line_lower serial_keyword in
    if 0 <=? keyword_pos then
      let after_keyword := slice_from line (keyword_pos + len serial_keyword) in
      match numbers after_keyword with
      | num :: _ => Some num
      | [] =>
          let numbers_before :=
            if 0 <? keyword_pos then numbers (slice_to line keyword_pos) else [] in
          match last numbers_before with
          | Some num => Some num
          | None =>
              let numbers_prev :=
                if (0 <? i)%nat then
                  match lines !! (i - 1)%nat with
                  | Some prev_line => numbers prev_line
                  | None => []
                  end
                else [] in
              match numbers_prev with
              | num :: _ => Some num
              | [] =>
                  let numbers_next :=
                    if Z.of_nat i <? len lines - 1 then
                      match lines !! (i + 1)%nat with
                      | Some next_line => numbers next_line
                      | None => []
                      end
                    else [] in
                  head numbers_next
              end
          end
      end
    else None
  else None.

(** [for serial_keyword in serial_keywords: ...], leaving at the first
    [break]. *)
Fixpoint keyword_loop (lines : list str) (i : nat) (line : str)
    (keywords : list str) (all_serials : list str) : list str :=
  match keywords with
  | [] => all_serials
  | serial_keyword :: rest =>
      match try_keyword lines i line serial_keyword with
      | Some num => all_serials ++ [num]
      | None => keyword_loop lines i line rest all_serials
      end
  end.

(** [for i, line in enumerate(lines): ...] *)
Definition all_serials (lines : list str) : list str :=
  fold_left
    (fun acc '(i, line) => keyword_loop lines i line serial_keywords acc)
    (imap (fun i line => (i, line)) lines) [].

(** The second removal of duplicates keeps a candidate only when its
    value is between 1 and 9999; a rejected candidate is not recorded as
    seen. *)
Definition serial_step (st : gset str * list str) (s : str)
  : gset str * list str :=
  let '(seen_serials, unique_serials) := st in
  if decide (s ∈ seen_serials) then st
  else match py_int s with
       | Some num_value =>
           if (1 <=? num_value) && (num_value <=? 9999)
           then ({[s]} ∪ seen_serials, unique_serials ++ [s])
           else st
       | None => st
       end.

Definition unique_serials (lines : list str) : list str :=
  snd (fold_left serial_step (all_serials lines) (∅, [])).

Definition new_product (clock : Clock) (text pid serial : str) : ProductInfo :=
  {| product_id := pid;
     serial_number := serial;
     label_date := now_date clock;
     raw_text := text;
     timestamp := now_timestamp clock;
     filepath := [];
     style_category := None |}.

(** [unique_serials[i] if i < len(unique_serials) else "unknown"] *)
Definition serial_at (serials : list str) (i : nat) : str :=
  match serials !! i with
  | Some s => s
  | None => unknown
  end.

Definition extract_all_products (clock : Clock) (text : str) (lines : list str)
  : list ProductInfo :=
  let ids := unique_ids lines in
  let serials := unique_serials lines in
  let products :=
    imap (fun i pid => new_product clock text pid (serial_at serials i)) ids in
  match ids, serials with
  | [], _ :: _ =>
      products ++ List.map (fun serial => new_product clock text unknown serial) serials
  | _, _ => products
  end.

End Extract.

(** ** The trigger detector *)

Section Trigger.
Context `{Unicode}.

(** [check_trigger], with the configured keyword as an argument. *)
Fixpoint trigger_loop (keyword : str) (lines : list str) : bool :=
  match lines with
  | [] => false
  | line :: rest =>
      if str_in keyword (lower line) then true else trigger_loop keyword rest
  end.

Definition check_trigger (trigger_keyword : str) (lines : list str) : bool :=
  let keyword := lower trigger_keyword in
  trigger_loop keyword lines.

End Trigger.

(** ** Paths and the directory tree *)

(** A [pathlib] path of the POSIX flavour: its root (empty, ["/"] or
    ["//"]) and its parts below the root. *)
Record Path := {
  root : str;
  parts : list str;
}.

#[global] Instance Path_eq_dec : EqDecision Path.
Proof. solve_decision. Defined.

#[global] Instance Path_countable : Countable Path :=
  inj_countable' (fun p => (root p, parts p))
                 (fun rp => {| root := fst rp; parts := snd rp |})
                 (fun p => match p with Build_Path _ _ => eq_refl end).

Definition slash : N := 47%N.

(** [s.split(sep)] for a one-character separator. *)
Fixpoint split_on (sep : N) (s : str) : list str :=
  match s with
  | [] => [[]]
  | c :: rest =>
      if (c =? sep)%N then [] :: split_on sep rest
      else match split_on sep rest with
           | w :: ws => (c :: w) :: ws
           | [] => [[c]]
           end
  end.

(** The parts of a path string: empty and ["."] segments are dropped. *)
Definition keep_part (w : str) : bool :=
  negb (bool_decide (w = [] \/ w = cp ".")).

Definition path_parts (s : str) : list str :=
  List.filter keep_part (split_on slash s).

(** Exactly two leading slashes are kept as the root ["//"]; one, or three
    and more, give ["/"]. *)
Definition path_root (s : str) : str :=
  match s with
  | 47%N :: 47%N :: 47%N :: _ => cp "/"
  | 47%N :: 47%N :: _ => cp "//"
  | 47%N :: _ => cp "/"
  | _ => []
  end.

Definition parse_path (s : str) : Path :=
  {| root := path_root s; parts := path_parts s |}.

(** [p / s]: an absolute right operand replaces the left one. *)
Definition path_join (p : Path) (s : str) : Path :=
  let q := parse_path s in
  match root q with
  | [] => {| root := root p; parts := parts p ++ parts q |}
  | _ => q
  end.

(** [str(p)] *)
Definition path_str (p : Path) : str :=
  match root p, parts p with
  | [], [] => cp "."
  | r, ps => r ++ join (cp "/") ps
  end.

(** The directory tree: the set of paths that exist. *)
Abbreviation FS := (gset Path) (only parsing).

Definition path_exists (fs : FS) (p : Path) : bool := bool_decide (p ∈ fs).

(** A directory and all its parents. *)
Definition with_parents (p : Path) : list Path :=
  List.map (fun n => {| root := root p; parts := take n (parts p) |})
           (seq 1 (length (parts p))).

(** ** The duplicate check and the capture store *)

Inductive exn := OSError | CvError.

Inductive outcome (A : Type) :=
  | Returns (a : A)
  | Raises (e : exn).
Arguments Returns {A} a.
Arguments Raises {A} e.

(** What the collaborators do when called: [mkdir] may raise, and
    [cv2.imwrite] writes the file and returns [True], or returns [False]
    and writes nothing, or raises. *)
Inductive encode := Written | NotWritten | EncodeError.

Record World := {
  mkdir_fails : Path -> bool;
  imwrite : Path -> encode;
}.

(** The result of [classifier.predict]: an exception, or a dictionary with
    or without the key ['category']. *)
Inductive prediction :=
  | PredictError
  | Predicted (category : option str).

Record Monitor (Image : Type) := {
  trigger_keyword : str;
  storage_format : option str;   (* config['storage'].get('format') *)
  save_dir : Path;
  classifier : option (Image -> prediction);
}.
Arguments trigger_keyword {Image} m.
Arguments storage_format {Image} m.
Arguments save_dir {Image} m.
Arguments classifier {Image} m.

(** The nine characters the [re.sub] of [save_screenshot] replaces by an
    underscore: less-than, greater-than, colon, double quote, slash,
    backslash, vertical bar, question mark and asterisk. *)
Definition illegal_chars : list N := [60; 62; 58; 34; 47; 92; 124; 63; 42]%N.

Definition sanitize (filename : str) : str :=
  List.map (fun c => if one_of illegal_chars c then 95%N else c) filename.

Section Store.
Context `{Unicode}.
Context {Image : Type}.
Variable self : Monitor Image.
Variable world : World.

(** [self.save_dir / f"ID_{info.product_id}" / info.label_date] *)
Definition date_folder (info : ProductInfo) : Path :=
  path_join (path_join (save_dir self) (cp "ID_" ++ product_id info))
            (label_date info).

Definition is_duplicate (fs : FS) (info : ProductInfo) : bool :=
  let jpg_path := path_join (date_folder info) (serial_number info ++ cp ".jpg") in
  let png_path := path_join (date_folder info) (serial_number info ++ cp ".png") in
  path_exists fs jpg_path || path_exists fs png_path.

Definition img_format : str :=
  lower (match storage_format self with Some f => f | None => cp "png" end).

Definition save_path (info : ProductInfo) : Path :=
  let filename := serial_number info ++ cp "." ++ img_format in
  let filename := sanitize filename in
  path_join (date_folder info) filename.

(** [save_screenshot]: the returned string and the directory tree after
    the call.  Both branches of the format test call [cv2.imwrite] and
    drop its result. *)
Definition save_screenshot (image : Image) (info : ProductInfo) (fs : FS)
  : outcome str * FS :=
  if mkdir_fails world (date_folder info) then (Raises OSError, fs)
  else
    let fs := fs ∪ list_to_set (with_parents (date_folder info)) in
    let filepath := save_path info in
    match imwrite world filepath with
    | Written => (Returns (path_str filepath), fs ∪ {[filepath]})
    | NotWritten => (Returns (path_str filepath), fs)
    | EncodeError => (Raises CvError, fs)
    end.

End Store.

(** ** One detection cycle *)

(** The state a cycle works on: the directory tree, the record objects
    returned by the extractor (mutated in place), and [saved_products],
    which holds references to some of them (indices into [objects]). *)
Record Cycle := {
  tree : gset Path;
  objects : list ProductInfo;
  saved_products : list nat;
}.

Definition set_filepath (info : ProductInfo) (filepath : str) : ProductInfo :=
  {| product_id := product_id info;
     serial_number := serial_number info;
     label_date := label_date info;
     raw_text := raw_text info;
     timestamp := timestamp info;
     filepath := filepath;
     style_category := style_category info |}.

Definition set_style_category (info : ProductInfo) (category : str) : ProductInfo :=
  {| product_id := product_id info;
     serial_number := serial_number info;
     label_date := label_date info;
     raw_text := raw_text info;
     timestamp := timestamp info;
     filepath := filepath info;
     style_category := Some category |}.

Section RunOnce.
Context `{Unicode}.
Context {Image : Type}.
Variable self : Monitor Image.
Variable world : World.

(** The classification block: a prediction sets [info.style_category];
    an exception inside it is caught and only printed. *)
Definition classify (image : Image) (info : ProductInfo) : ProductInfo :=
  match classifier self with
  | Some predict =>
      match predict image with
      | Predicted category =>
          set_style_category info
            (match category with Some c => c | None => unknown end)
      | PredictError => info
      end
  | None => info
  end.

(** The body of [for info in products], for the object at index [i]. *)
Definition visit (image : Image) (i : nat) (st : Cycle) : outcome unit * Cycle :=
  match objects st !! i with
  | None => (Returns tt, st)
  | Some info =>
      if is_duplicate self (tree st) info then (Returns tt, st)
      else
        let info := classify image info in
        let st := {| tree := tree st;
                     objects := <[i := info]> (objects st);
                     saved_products := saved_products st |} in
        match save_screenshot self world image info (tree st) with
        | (Returns filepath, fs) =>
            (Returns tt,
             {| tree := fs;
                objects := <[i := set_filepath info filepath]> (objects st);
                saved_products := saved_products st ++ [i] |})
        | (Raises e, fs) =>
            (Raises e,
             {| tree := fs;
                objects := objects st;
                saved_products := saved_products st |})
        end
  end.

Fixpoint visit_all (image : Image) (indices : list nat) (st : Cycle)
  : outcome unit * Cycle :=
  match indices with
  | [] => (Returns tt, st)
  | i :: rest =>
      match visit image i st with
      | (Returns _, st) => visit_all image rest st
      | (Raises e, st) => (Raises e, st)
      end
  end.

(** The objects [saved_products] refers to. *)
Definition deref (st : Cycle) : list ProductInfo :=
  omap (fun i => objects st !! i) (saved_products st).

(** [run_once] from the result of the recognizer on: the returned list
    (or the exception that leaves the function) and the final state.  The
    log file the recognizer writes is not part of it; [run_once_logged]
    below adds it. *)
Definition run_once (clock : Clock) (image : Image) (text : str)
    (lines : list str) (fs : gset Path)
  : outcome (list ProductInfo) * Cycle :=
  let idle := {| tree := fs; objects := []; saved_products := [] |} in
  match lines with
  | [] => (Returns [], idle)
  | _ =>
      if negb (check_trigger (trigger_keyword self) lines) then (Returns [], idle)
      else
        let products := extract_all_products clock text lines in
        let st := {| tree := fs; objects := products; saved_products := [] |} in
        match products with
        | [] => (Returns [], st)
        | _ =>
            match visit_all image (seq 0 (length products)) st with
            | (Returns _, st) => (Returns (deref st), st)
            | (Raises e, st) => (Raises e, st)
            end
        end
  end.

End RunOnce.

(** ** The recognizer adapter *)

Section Ocr.
Context `{Unicode}.

(** The recognition scores are floating-point numbers; the model keeps
    them abstract and takes the test [score > 0.3] as given. *)
Variable Score : Type.
Variable above_threshold : Score -> bool.

(** [s.lstrip()] and [s.strip()]: white space is what [str.isspace] says,
    the same table as the class [\s]. *)
Fixpoint lstrip (s : str) : str :=
  match s with
  | c :: rest => if isspace c then lstrip rest else s
  | [] => []
  end.

Definition strip (s : str) : str := rev (lstrip (rev (lstrip s))).

(** One element of the result of [PaddleOCR.predict]: a dictionary that
    may or may not have the keys ['rec_texts'] and ['rec_scores']. *)
Record OcrItem := {
  rec_texts : option (list str);
  rec_scores : option (list Score);
}.

(** [for text, score in zip(texts, scores): ...] *)
Definition keep_confident (lines : list str) (texts : list str)
    (scores : list Score) : list str :=
  fold_left
    (fun lines '(text, score) =>
       if above_threshold score then lines ++ [strip text] else lines)
    (zip texts scores) lines.

Definition item_lines (lines : list str) (item : OcrItem) : list str :=
  match rec_texts item, rec_scores item with
  | Some texts, Some scores => keep_confident lines texts scores
  | _, _ => lines
  end.

(** [do_ocr] from the result of the engine on ([None] and the empty list
    are both falsy): the full text and the lines. *)
Definition do_ocr (result : option (list OcrItem)) : str * list str :=
  let lines :=
    match result with
    | Some (item :: items) => fold_left item_lines (item :: items) []
    | _ => []
    end in
  (join [10%N] lines, lines).

End Ocr.

(** ** Durations *)

(** [str(n)] for an integer, as in an f-string. *)
Definition decimal (n : Z) : str := cp (NilZero.string_of_int (Z.to_int n)).

(** [timedelta(seconds=n)] for an integer [n]: the normalized days and
    seconds, or [None] for the [OverflowError] of a day count beyond
    999999999. *)
Definition timedelta_seconds (n : Z) : option (Z * Z) :=
  let days := n / 86400 in
  if (-999999999 <=? days) && (days <=? 999999999)
  then Some (days, n mod 86400)
  else None.

(** The unit words of the log: day, hour, minute, second. *)
Definition word_days : str := [22825%N].
Definition word_hours : str := [23567%N; 26102%N].
Definition word_minutes : str := [20998%N; 38047%N].
Definition word_seconds : str := [31186%N].

(** [_format_duration], from [int(seconds)] on. *)
Definition format_duration (seconds : Z) : option str :=
  match timedelta_seconds seconds with
  | None => None
  | Some (days, day_seconds) =>
      let hours := day_seconds / 3600 in
      let remainder := day_seconds mod 3600 in
      let minutes := remainder / 60 in
      let secs := remainder mod 60 in
      let tail_minutes := decimal minutes ++ word_minutes ++ cp " " ++
                          decimal secs ++ word_seconds in
      let tail_hours := decimal hours ++ word_hours ++ cp " " ++ tail_minutes in
      Some (if 0 <? days then decimal days ++ word_days ++ cp " " ++ tail_hours
            else if 0 <? hours then tail_hours
            else if 0 <? minutes then tail_minutes
            else decimal secs ++ word_seconds)
  end.

(** ** The monitoring loop *)

(** What one turn of the loop of [run] gets from the collaborators: a
    recognized frame with the clock readings of its extraction, or an
    exception raised while capturing or recognizing. *)
Inductive Frame (Image : Type) :=
  | Recognized (clock : Clock) (image : Image) (text : str) (lines : list str)
  | Failed (e : exn).
Arguments Recognized {Image} clock image text lines.
Arguments Failed {Image} e.

(** The counters of [run] and the directory tree. *)
Record Run := {
  count : Z;
  saved_count : Z;
  saved_ids : gmap (list N) Z;
  disk : gset Path;
}.

(** [saved_ids[id_val] = saved_ids.get(id_val, 0) + 1] for each result. *)
Definition count_ids (results : list ProductInfo) (ids : gmap (list N) Z)
  : gmap (list N) Z :=
  fold_left
    (fun ids info =>
       let id_val := product_id info in
       <[id_val := match ids !! id_val with Some n => n | None => 0 end + 1]> ids)
    results ids.

Section Run.
Context `{Unicode}.
Context {Image : Type}.
Variable self : Monitor Image.
Variable world : World.

(** One turn of [while True]: the exception of a cycle is caught and only
    printed. *)
Definition run_turn (st : Run) (frame : Frame Image) : Run :=
  let count := count st + 1 in
  match frame with
  | Failed _ =>
      {| count := count; saved_count := saved_count st;
         saved_ids := saved_ids st; disk := disk st |}
  | Recognized clock image text lines =>
      match run_once self world clock image text lines (disk st) with
      | (Returns results, cycle) =>
          {| count := count;
             saved_count := saved_count st + len results;
             saved_ids := count_ids results (saved_ids st);
             disk := tree cycle |}
      | (Raises _, cycle) =>
          {| count := count; saved_count := saved_count st;
             saved_ids := saved_ids st; disk := tree cycle |}
      end
  end.

(** [run] up to the interrupt, for the frames of the turns it completed. *)
Definition run (frames : list (Frame Image)) (fs : gset Path) : Run :=
  fold_left run_turn frames
    {| count := 0; saved_count := 0; saved_ids := ∅; disk := fs |}.

End Run.

(** ** The cycle from the captured image on *)

(** [do_ocr] ends with [_save_ocr_log], which makes the folder [./logs]
    and appends to the file [ocr_<day>.log] in it, [day] being the reading
    ["%Y%m%d"] of the clock; every exception inside is swallowed.  The
    collaborators decide how far it gets: nowhere, as far as the folder, or
    to the end. *)
Inductive logging := LogNothing | LogFolder | LogWritten.

Definition logs_dir : Path := parse_path (cp "./logs").

Definition ocr_log (day : str) : Path :=
  path_join logs_dir (cp "ocr_" ++ day ++ cp ".log").

Definition save_ocr_log (how : logging) (day : str) (fs : gset Path) : gset Path :=
  match how with
  | LogNothing => fs
  | LogFolder => fs ∪ list_to_set (with_parents logs_dir)
  | LogWritten => fs ∪ list_to_set (with_parents logs_dir) ∪ {[ocr_log day]}
  end.

Section Logged.
Context `{Unicode}.
Context {Image : Type}.
Variable self : Monitor Image.
Variable world : World.
Variable Score : Type.
Variable above_threshold : Score -> bool.

(** [run_once] from the result of the engine on the captured image:
    [do_ocr] with its log write, then the steps of [run_once] above.  (The
    capture and the call of the engine are collaborators; an exception of
    theirs is a [Failed] frame of [run].) *)
Definition run_once_logged (how : logging) (day : str) (clock : Clock)
    (image : Image) (result : option (list (OcrItem Score))) (fs : gset Path)
  : outcome (list ProductInfo) * Cycle :=
  let ocr := do_ocr Score above_threshold result in
  run_once self world clock image (fst ocr) (snd ocr) (save_ocr_log how day fs).

End Logged.

(** * Specification vocabulary

    The notions the statements below are phrased in. *)

(** [needle] occurs in [s]: the declarative reading of [needle in s]. *)
Definition substring (needle s : str) : Prop :=
  exists pre post, s = pre ++ needle ++ post.

(** The marker first occurs at index [p] of [s]. *)
Definition first_occurrence (needle s : str) (p : nat) : Prop :=
  starts_with needle (drop p s) = true /\
  (p <= length s)%nat /\
  forall q, (q < p)%nat -> starts_with needle (drop q s) = false.

(** The first alternative that yields something. *)
Fixpoint first_some {A} (steps : list (option A)) : option A :=
  match steps with
  | [] => None
  | Some a :: _ => Some a
  | None :: rest => first_some rest
  end.

(** A character [sanitize] leaves as it is. *)
Definition legal (c : N) : Prop := one_of illegal_chars c = false.

(** Two states of a record agree on the five fields given at creation. *)
Definition same_core (a b : ProductInfo) : Prop :=
  product_id a = product_id b /\
  serial_number a = serial_number b /\
  label_date a = label_date b /\
  raw_text a = raw_text b /\
  timestamp a = timestamp b.

Section Vocabulary.
Context `{Unicode}.

(** What a capture of [\b(\d{1,4})\b] looks like. *)
Definition is_number (g : str) : Prop :=
  (1 <= length g <= 4)%nat /\ forallb isdigit g = true.

(** The four places the code searches, for a marker found at index [p] of
    the lower-cased line.  The code applies that index to the line itself
    ([line[keyword_pos + len(serial_keyword):]] and [line[:keyword_pos]]),
    and so do these; they are the text after and before the marker on the
    line only when lower-casing keeps the positions. *)
Definition after_marker (line serial_keyword : str) (p : nat) : option str :=
  head (numbers (drop (p + length serial_keyword) line)).

Definition before_marker (line : str) (p : nat) : option str :=
  last (numbers (take p line)).

Definition on_previous_line (lines : list str) (i : nat) : option str :=
  match i with
  | O => None
  | S j => match lines !! j with
           | Some prev_line => head (numbers prev_line)
           | None => None
           end
  end.

Definition on_next_line (lines : list str) (i : nat) : option str :=
  match lines !! S i with
  | Some next_line => head (numbers next_line)
  | None => None
  end.

(** The order in which the code tries them. *)
Definition marker_candidate (lines : list str) (i : nat)
    (line serial_keyword : str) (p : nat) : option str :=
  first_some [after_marker line serial_keyword p;
              before_marker line p;
              on_previous_line lines i;
              on_next_line lines i].

(** What one line contributes: the candidate of the first keyword, in the
    order of [serial_keywords], that yields one. *)
Definition line_candidate (lines : list str) (i : nat) (line : str) : option str :=
  first_some (List.map (try_keyword lines i line) serial_keywords).

(** A candidate the second removal of duplicates accepts. *)
Definition accepted (s : str) : Prop :=
  exists num_value, py_int s = Some num_value /\ 1 <= num_value <= 9999.

Definition seen_is (seen : gset str) (unique : list str) : Prop :=
  (forall x, x ∈ seen <-> x ∈ unique) /\ NoDup unique.

End Vocabulary.

Section CycleVocabulary.
Context `{Unicode}.
Context {Image : Type}.
Variable self : Monitor Image.
Variable world : World.

(** How one visit leaves the state. *)
Inductive visited (image : Image) (i : nat) (st : Cycle)
  : outcome unit * Cycle -> Prop :=
  | visited_absent :
      objects st !! i = None -> visited image i st (Returns tt, st)
  | visited_duplicate info :
      objects st !! i = Some info ->
      is_duplicate self (tree st) info = true ->
      visited image i st (Returns tt, st)
  | visited_saved info fs' :
      objects st !! i = Some info ->
      is_duplicate self (tree st) info = false ->
      tree st ⊆ fs' ->
      visited image i st
        (Returns tt,
         {| tree := fs';
            objects :=
              <[i := set_filepath (classify self image info)
                       (path_str (save_path self (classify self image info)))]>
                (objects st);
            saved_products := saved_products st ++ [i] |})
  | visited_raised info e fs' :
      objects st !! i = Some info ->
      is_duplicate self (tree st) info = false ->
      tree st ⊆ fs' ->
      mkdir_fails world (date_folder self (classify self image info)) = true \/
      imwrite world (save_path self (classify self image info)) = EncodeError ->
      visited image i st
        (Raises e,
         {| tree := fs';
            objects := <[i := classify self image info]> (objects st);
            saved_products := saved_products st |}).

(** What every step of the loop preserves: the tree and [saved_products]
    only grow, and each object keeps its five creation fields. *)
Definition evolves (st st' : Cycle) : Prop :=
  tree st ⊆ tree st' /\
  (forall k, k ∈ saved_products st -> k ∈ saved_products st') /\
  (forall j o, objects st !! j = Some o ->
     exists o', objects st' !! j = Some o' /\ same_core o o').

(** How the object at index [i] relates to the record the extractor
    created there, given the indices saved so far. *)
Definition object_ok (saved : list nat) (i : nat) (info info' : ProductInfo)
  : Prop :=
  same_core info info' /\
  (classifier self = None -> style_category info' = style_category info) /\
  (i ∈ saved -> filepath info' = path_str (save_path self info')) /\
  (i ∉ saved -> filepath info' = filepath info).

Definition cycle_inv (products : list ProductInfo) (todo : list nat) (st : Cycle)
  : Prop :=
  length (objects st) = length products /\
  (forall i info, products !! i = Some info ->
     exists info', objects st !! i = Some info' /\
                   object_ok (saved_products st) i info info') /\
  NoDup (saved_products st) /\
  (forall i, i ∈ saved_products st -> i ∉ todo).

End CycleVocabulary.

(** ** Sample inputs for the worked cases *)

(** The tables on the ASCII range and U+0130, the capital I with a dot
    above: a letter (so a word character), whose lower-case form is the two
    code points U+0069 U+0307.  On text made of ASCII and that character
    they are the interpreter's. *)
Definition dotted_lower_char (c : N) : list N :=
  if (c =? 304)%N then [105; 775]%N else [ascii_lower_char c].

Definition dotted_tables : Unicode := {|
  lower := fun s => concat (List.map dotted_lower_char s);
  isdigit := ascii_isdigit;
  isword := fun c => ascii_isword c || (c =? 304)%N;
  isspace := ascii_isspace;
  digit_val := fun c => Z.of_N c - 48;
|}.

(** The line made of U+0130, the marker, and the text [12 34]. *)
Definition dotted_line : str := [304%N] ++ cp "mtk" ++ cp "12 34".

Definition sample_clock : Clock :=
  {| now_timestamp := cp "20251117_101500"; now_date := cp "11-17" |}.

Definition sample_monitor (format : string) : Monitor unit :=
  {| trigger_keyword := cp "fafa";
     storage_format := Some (cp format);
     save_dir := parse_path (cp "./screenshots");
     classifier := None |}.

(** A world where directories can be made and the encoder writes. *)
Definition kind_world : World :=
  {| mkdir_fails := fun _ => false; imwrite := fun _ => Written |}.

Definition sample_record : ProductInfo :=
  new_product sample_clock [] (cp "41") (cp "7").

(** A world where the encoder returns false. *)
Definition silent_world : World :=
  {| mkdir_fails := fun _ => false; imwrite := fun _ => NotWritten |}.

(** A world where the encoder raises for the first record of the frame
    below and writes the others. *)
Definition failing_world : World :=
  {| mkdir_fails := fun _ => false;
     imwrite := fun p =>
       if bool_decide (p = {| root := [];
                              parts := [cp "screenshots"; cp "ID_41"; cp "11-17";
                                        cp "100.png"] |})
       then EncodeError else Written |}.

Definition styled_monitor : Monitor unit :=
  {| trigger_keyword := cp "fafa";
     storage_format := Some (cp "png");
     save_dir := parse_path (cp "./screenshots");
     classifier := Some (fun _ => Predicted (Some (cp "dress"))) |}.

Definition two_labels : list str :=
  [cp "fafa"; cp "ID:41"; cp "ID:42"; cp "yeye 100"; cp "mtk 200"].

(** ** Notions for the further properties *)

(** The sum of the per-ID counts. *)
Definition total (ids : gmap (list N) Z) : Z :=
  map_fold (fun _ n acc => n + acc) 0 ids.

(** The same monitor with no classifier attached. *)
Definition without_classifier {Image : Type} (self : Monitor Image) : Monitor Image :=
  {| trigger_keyword := trigger_keyword self;
     storage_format := storage_format self;
     save_dir := save_dir self;
     classifier := None |}.

(** Two states of a record that differ at most in [style_category]. *)
Definition twin (a b : ProductInfo) : Prop :=
  same_core a b /\ filepath a = filepath b.

Definition twins (st st' : Cycle) : Prop :=
  tree st = tree st' /\
  saved_products st = saved_products st' /\
  Forall2 twin (objects st) (objects st').

(** What every turn keeps. *)
Definition run_inv (fs : gset Path) (turns : Z) (st : Run) : Prop :=
  count st = turns /\ saved_count st = total (saved_ids st) /\
  0 <= saved_count st /\ fs ⊆ disk st.

Section FurtherVocabulary.
Context `{Unicode}.
Context {Image : Type}.
Variable self : Monitor Image.
Variable Score : Type.
Variable above_threshold : Score -> bool.

(** The lines one result item contributes, as a filter and a map. *)
Definition confident_lines (item : OcrItem Score) : list str :=
  match rec_texts Score item, rec_scores Score item with
  | Some texts, Some scores =>
      List.map (fun p => strip (fst p))
               (List.filter (fun p => above_threshold (snd p)) (zip texts scores))
  | _, _ => []
  end.

(** Every listed record has its file in the tree. *)
Definition all_written (st : Cycle) : Prop :=
  forall i o, i ∈ saved_products st -> objects st !! i = Some o ->
    path_exists (tree st) (save_path self o) = true.

End FurtherVocabulary.

(** * Properties *)

(** ** Substrings and [find] *)

Lemma starts_with_spec (p s : str) :
  starts_with p s = true <-> exists post, s = p ++ post.
Proof.
  revert s; induction p as [|a p IH]; intros s; simpl.
  - split; [intros _; by exists s | done].
  - destruct s as [|b s].
    + split; [done | intros [post Hpost]; discriminate].
    + rewrite andb_true_iff, N.eqb_eq, IH. split.
      * intros [-> [post ->]]. by exists post.
      * intros [post Hpost]. injection Hpost as -> ->. eauto.
Qed.

Lemma str_in_spec (needle s : str) :
  str_in needle s = true <-> substring needle s.
Proof.
  unfold substring. induction s as [|c s IH]; simpl.
  - rewrite orb_false_r, starts_with_spec. split.
    + intros [post Hpost]. by exists [], post.
    + intros (pre & post & Heq). symmetry in Heq.
      apply app_eq_nil in Heq as [-> Heq]. apply app_eq_nil in Heq as [-> ->].
      by exists [].
  - rewrite orb_true_iff, starts_with_spec, IH. split.
    + intros [[post Hpost] | (pre & post & ->)].
      * by exists [], post.
      * by exists (c :: pre), post.
    + intros (pre & post & Heq). destruct pre as [|d pre]; simpl in Heq.
      * left. by exists post.
      * right. injection Heq as -> ->. by exists pre, post.
Qed.

Lemma find_from_first (needle s : str) (p : nat) (i : Z) :
  first_occurrence needle s p -> find_from needle s i = i + Z.of_nat p.
Proof.
  revert s i; induction p as [|p IH]; intros s i (Hat & Hle & Hbefore).
  - rewrite drop_0 in Hat. destruct s; simpl; rewrite Hat; lia.
  - destruct s as [|c s]; simpl in Hle; [lia|].
    assert (H0 : starts_with needle (c :: s) = false)
      by (apply (Hbefore 0%nat); lia).
    cbn [find_from]. rewrite H0, (IH s (i + 1)); [lia|].
    split; [exact Hat|]. split; [lia|].
    intros q Hq. apply (Hbefore (S q)). lia.
Qed.

Lemma first_occurrence_exists (needle s : str) :
  str_in needle s = true -> exists p, first_occurrence needle s p.
Proof.
  induction s as [|c s IH]; simpl; intros Hin.
  - rewrite orb_false_r in Hin. exists 0%nat.
    split; [by rewrite drop_0|]. split; [simpl; lia | intros q Hq; lia].
  - destruct (starts_with needle (c :: s)) eqn:Hhere.
    + exists 0%nat. split; [by rewrite drop_0|].
      split; [simpl; lia | intros q Hq; lia].
    + simpl in Hin. destruct (IH Hin) as (p & Hat & Hle & Hbefore).
      exists (S p). split; [exact Hat|]. split; [simpl; lia|].
      intros [|q] Hq; [by rewrite drop_0|]. apply Hbefore. lia.
Qed.

Lemma first_occurrence_in (needle s : str) (p : nat) :
  first_occurrence needle s p -> str_in needle s = true.
Proof.
  intros (Hat & _ & _). apply str_in_spec.
  apply starts_with_spec in Hat as [post Hpost].
  exists (take p s), post. by rewrite <- Hpost, take_drop.
Qed.

Lemma str_find_not_in (needle s : str) (i : Z) :
  str_in needle s = false -> find_from needle s i = -1.
Proof.
  revert i; induction s as [|c s IH]; intros i; simpl; intros Hin;
    apply orb_false_iff in Hin as [-> Hin]; [done | by apply IH].
Qed.

(** ** The trigger detector *)

Section TriggerFacts.
Context `{Unicode}.

Lemma trigger_loop_spec (keyword : str) (lines : list str) :
  trigger_loop keyword lines = true <->
  exists line, line ∈ lines /\ substring keyword (lower line).
Proof.
  induction lines as [|l lines IH]; simpl.
  - split; [done | intros (line & Hin & _); by apply elem_of_nil in Hin].
  - destruct (str_in keyword (lower l)) eqn:Hl.
    + split; [intros _ | done]. exists l. split; [left | by apply str_in_spec].
    + rewrite IH. split.
      * intros (line & Hin & Hsub). exists line. split; [by right | done].
      * intros (line & Hin & Hsub). apply elem_of_cons in Hin as [-> | Hin].
        -- apply str_in_spec in Hsub. congruence.
        -- by exists line.
Qed.

(** C4.  The trigger detector answers true exactly when the lower-cased
    keyword is a substring of some lower-cased line.  It is a total
    function of its two arguments: it reads nothing else, changes nothing
    and has no exceptional outcome. *)
Theorem check_trigger_iff (trigger_keyword : str) (lines : list str) :
  check_trigger trigger_keyword lines = true <->
  exists line, line ∈ lines /\ substring (lower trigger_keyword) (lower line).
Proof. unfold check_trigger. apply trigger_loop_spec. Qed.

End TriggerFacts.

(** ** The number pattern *)

Section RegexFacts.
Context `{Unicode}.

Lemma findall_from_elem (m : matcher) (g : str) (s : str) :
  forall prev skip,
    g ∈ findall_from m prev skip s ->
    exists prev' s' n, m prev' s' = Some (g, n).
Proof.
  induction s as [|c s IH]; intros prev skip; simpl.
  - intros Hin. by apply elem_of_nil in Hin.
  - destruct skip as [|k]; [|apply IH].
    destruct (m prev (c :: s)) as [[g' n]|] eqn:Hm; [|apply IH].
    intros Hin. apply elem_of_cons in Hin as [-> | Hin]; eauto.
Qed.

Lemma span_le_length (p : N -> bool) (s : str) : (span p s <= length s)%nat.
Proof. induction s as [|c s IH]; simpl; [lia | destruct (p c); simpl; lia]. Qed.

Lemma span_take (p : N -> bool) (s : str) (n : nat) :
  (n <= span p s)%nat -> forallb p (take n s) = true.
Proof.
  revert n; induction s as [|c s IH]; intros [|n]; simpl; try done.
  destruct (p c) eqn:Hc; simpl; [|lia].
  intros Hn. apply IH. lia.
Qed.

Lemma digits_then_boundary_some (k : nat) (s g : str) (n : nat) :
  digits_then_boundary k s = Some (g, n) ->
  g = take n s /\ (1 <= n <= k)%nat.
Proof.
  induction k as [|k IH]; simpl; [done|].
  destruct (boundary _ _).
  - intros [= <- <-]. split; [done | lia].
  - intros Hk. destruct (IH Hk). split; [done | lia].
Qed.

Lemma number_token_shape (prev : option N) (s g : str) (n : nat) :
  number_token prev s = Some (g, n) -> is_number g.
Proof.
  unfold number_token. destruct (boundary prev (head s)); [|done].
  intros Hm. apply digits_then_boundary_some in Hm as [-> Hn].
  pose proof (span_le_length isdigit s).
  split.
  - rewrite length_take. lia.
  - apply span_take. lia.
Qed.

Lemma numbers_shape (s g : str) : g ∈ numbers s -> is_number g.
Proof.
  intros Hin. apply findall_from_elem in Hin as (prev & s' & n & Hm).
  by apply number_token_shape in Hm.
Qed.


End RegexFacts.

(** ** The search for a serial candidate *)

Lemma slice_from_nat {A} (s : list A) (n : nat) :
  slice_from s (Z.of_nat n) = drop n s.
Proof.
  unfold slice_from, slice_bound, len.
  destruct (Z.ltb_spec (Z.of_nat n) 0); [lia|].
  destruct (Nat.le_gt_cases n (length s)).
  - f_equal. lia.
  - rewrite !drop_ge; [done | lia | lia].
Qed.

Lemma slice_to_nat {A} (s : list A) (n : nat) :
  slice_to s (Z.of_nat n) = take n s.
Proof.
  unfold slice_to, slice_bound, len.
  destruct (Z.ltb_spec (Z.of_nat n) 0); [lia|].
  destruct (Nat.le_gt_cases n (length s)).
  - f_equal. lia.
  - rewrite !take_ge; [done | lia | lia].
Qed.

Section Candidates.
Context `{Unicode}.

Lemma numbers_nil : numbers [] = [].
Proof. reflexivity. Qed.

Lemma try_keyword_absent (lines : list str) (i : nat) (line kw : str) :
  str_in kw (lower line) = false -> try_keyword lines i line kw = None.
Proof. unfold try_keyword. by intros ->. Qed.

Lemma try_keyword_present (lines : list str) (i : nat) (line kw : str) (p : nat) :
  first_occurrence kw (lower line) p ->
  try_keyword lines i line kw = marker_candidate lines i line kw p.
Proof.
  intros Hp. unfold try_keyword, marker_candidate.
  rewrite (first_occurrence_in _ _ _ Hp).
  unfold str_find. rewrite (find_from_first _ _ _ 0 Hp), Z.add_0_l.
  destruct (Z.leb_spec 0 (Z.of_nat p)); [|lia].
  unfold len. rewrite <- Nat2Z.inj_add, slice_from_nat.
  unfold after_marker. cbn [first_some].
  destruct (numbers (drop (p + length kw) line)) as [|num rest]; [|done].
  cbn [head].
  assert (Hbefore :
    last (if 0 <? Z.of_nat p then numbers (slice_to line (Z.of_nat p)) else [])
    = before_marker line p).
  { unfold before_marker. destruct p as [|p].
    - by rewrite take_0, numbers_nil.
    - destruct (Z.ltb_spec 0 (Z.of_nat (S p))); [|lia]. by rewrite slice_to_nat. }
  rewrite Hbefore. destruct (before_marker line p); [done|].
  assert (Hprev :
    (if (0 <? i)%nat
     then match lines !! (i - 1)%nat with
          | Some prev_line => numbers prev_line
          | None => []
          end
     else []) =
    match i with
    | O => []
    | S j => match lines !! j with Some l => numbers l | None => [] end
    end).
  { destruct i as [|j]; [done|].
    replace (S j - 1)%nat with j by lia. done. }
  rewrite Hprev. unfold on_previous_line.
  assert (Hnext :
    head (if Z.of_nat i <? Z.of_nat (length lines) - 1
          then match lines !! (i + 1)%nat with
               | Some next_line => numbers next_line
               | None => []
               end
          else []) = first_some [on_next_line lines i]).
  { unfold on_next_line. replace (i + 1)%nat with (S i) by lia.
    destruct (Z.ltb_spec (Z.of_nat i) (Z.of_nat (length lines) - 1)).
    - destruct (lines !! S i) as [next_line|]; [|done].
      by destruct (numbers next_line).
    - by rewrite (lookup_ge_None_2 lines (S i)) by lia. }
  destruct i as [|j]; [exact Hnext|].
  destruct (lines !! j) as [prev_line|]; [|exact Hnext].
  destruct (numbers prev_line); [exact Hnext | done].
Qed.

Lemma keyword_loop_spec (lines : list str) (i : nat) (line : str)
    (keywords acc : list str) :
  keyword_loop lines i line keywords acc =
  acc ++ option_list (first_some (List.map (try_keyword lines i line) keywords)).
Proof.
  induction keywords as [|kw rest IH]; simpl.
  - by rewrite app_nil_r.
  - destruct (try_keyword lines i line kw); [done | apply IH].
Qed.

Lemma fold_enumerate {A B} (F : nat -> A -> list B) (l : list A) :
  forall (k : nat) (init : list B),
    fold_left (fun acc '(i, x) => acc ++ F i x)
              (imap (fun i x => ((k + i)%nat, x)) l) init
    = init ++ concat (imap (fun i x => F (k + i)%nat x) l).
Proof.
  induction l as [|x l IH]; intros k init; simpl.
  - by rewrite app_nil_r.
  - rewrite (imap_ext _ (fun i x => ((S k + i)%nat, x)) l)
      by (intros; simpl; f_equal; lia).
    rewrite IH, <- app_assoc. do 3 f_equal.
    apply imap_ext. intros; simpl; f_equal; lia.
Qed.

Lemma all_serials_spec (lines : list str) :
  all_serials lines =
  concat (imap (fun i line => option_list (line_candidate lines i line)) lines).
Proof.
  unfold all_serials.
  etrans;
    [|exact (fold_enumerate
               (fun i line => option_list (line_candidate lines i line)) lines 0 [])].
  change (imap (fun i x => ((0 + i)%nat, x)) lines)
    with (imap (fun i (line : list N) => (i, line)) lines).
  generalize (@nil (list N)) as acc.
  generalize (imap (fun i (line : list N) => (i, line)) lines) as pairs.
  induction pairs as [|[i line] pairs IH]; intros acc; cbn [fold_left]; [done|].
  rewrite keyword_loop_spec. apply IH.
Qed.

End Candidates.

(** ** The extractor *)

Section ExtractFacts.
Context `{Unicode}.

Lemma first_some_elem {A} (steps : list (option A)) (a : A) :
  first_some steps = Some a -> Some a ∈ steps.
Proof.
  induction steps as [|[b|] steps IH]; simpl; [done | | ].
  - intros [= ->]. left.
  - intros Hrest. right. by apply IH.
Qed.

Lemma head_number (s num : str) : head (numbers s) = Some num -> is_number num.
Proof. intros E. apply head_Some_elem_of in E. eauto using numbers_shape. Qed.

Lemma last_number (s num : str) : last (numbers s) = Some num -> is_number num.
Proof. intros E. apply last_Some_elem_of in E. eauto using numbers_shape. Qed.

Lemma marker_candidate_number (lines : list str) (i : nat) (line kw : str)
    (p : nat) (num : str) :
  marker_candidate lines i line kw p = Some num -> is_number num.
Proof.
  intros Hc. apply first_some_elem in Hc.
  unfold after_marker, before_marker, on_previous_line, on_next_line in Hc.
  repeat (apply elem_of_cons in Hc as [Hc|Hc]);
    [symmetry in Hc .. | by apply elem_of_nil in Hc].
  - eauto using head_number.
  - eauto using last_number.
  - destruct i as [|j]; [done|].
    destruct (lines !! j); [eauto using head_number | done].
  - destruct (lines !! S i); [eauto using head_number | done].
Qed.

Lemma try_keyword_number (lines : list str) (i : nat) (line kw num : str) :
  try_keyword lines i line kw = Some num -> is_number num.
Proof.
  destruct (str_in kw (lower line)) eqn:Hin.
  - destruct (first_occurrence_exists _ _ Hin) as [p Hp].
    rewrite (try_keyword_present _ _ _ _ _ Hp).
    apply marker_candidate_number.
  - by rewrite try_keyword_absent.
Qed.

Lemma line_candidate_number (lines : list str) (i : nat) (line num : str) :
  line_candidate lines i line = Some num -> is_number num.
Proof.
  unfold line_candidate, serial_keywords. cbn [List.map first_some].
  destruct (try_keyword lines i line (cp "mtk")) eqn:E1.
  - intros [= <-]. eauto using try_keyword_number.
  - destruct (try_keyword lines i line (cp "yeye")) eqn:E2; [|done].
    intros [= <-]. eauto using try_keyword_number.
Qed.

Lemma elem_of_concat {A} (x : A) (ls : list (list A)) :
  x ∈ concat ls -> exists l, l ∈ ls /\ x ∈ l.
Proof.
  induction ls as [|l ls IH]; simpl; intros Hin.
  - by apply elem_of_nil in Hin.
  - apply elem_of_app in Hin as [Hin|Hin].
    + exists l. split; [left | done].
    + destruct (IH Hin) as (l' & Hl' & Hx). exists l'. split; [by right | done].
Qed.

Lemma all_serials_number (lines : list str) (num : str) :
  num ∈ all_serials lines -> is_number num.
Proof.
  rewrite all_serials_spec. intros Hin.
  apply elem_of_concat in Hin as (cands & Hcands & Hnum).
  apply elem_of_lookup_imap_1 in Hcands as (i & line & -> & _).
  destruct (line_candidate lines i line) as [c|] eqn:Hc; simpl in Hnum.
  - apply list_elem_of_singleton in Hnum as ->. eauto using line_candidate_number.
  - by apply elem_of_nil in Hnum.
Qed.

Lemma serial_step_inv (seen : gset str) (unique : list str) (s : str) :
  seen_is seen unique ->
  seen_is (serial_step (seen, unique) s).1 (serial_step (seen, unique) s).2 /\
  forall x, x ∈ (serial_step (seen, unique) s).2 ->
            x ∈ unique \/ (x = s /\ accepted s).
Proof.
  intros [Hseen Hnodup]. unfold serial_step.
  destruct (decide (s ∈ seen)) as [Hs|Hs]; [by split; [split|left]|].
  destruct (py_int s) as [v|] eqn:Hv; [|by split; [split|left]].
  destruct (Z.leb_spec 1 v); [|by split; [split|left]].
  destruct (Z.leb_spec v 9999); [|by split; [split|left]].
  cbn [andb fst snd]. split; [split|].
  - intros x. rewrite elem_of_union, elem_of_singleton, elem_of_app,
      list_elem_of_singleton, Hseen. tauto.
  - apply NoDup_app. split; [done|]. split; [|apply NoDup_singleton].
    intros x Hx Hxs. apply list_elem_of_singleton in Hxs as ->.
    apply Hs, Hseen, Hx.
  - intros x Hx. apply elem_of_app in Hx as [Hx|Hx]; [by left|].
    apply list_elem_of_singleton in Hx as ->. right. split; [done|].
    exists v. split; [done | lia].
Qed.

Lemma serial_fold_inv (l : list str) :
  forall seen unique,
    seen_is seen unique ->
    seen_is (fold_left serial_step l (seen, unique)).1
            (fold_left serial_step l (seen, unique)).2 /\
    forall x, x ∈ (fold_left serial_step l (seen, unique)).2 ->
              x ∈ unique \/ (x ∈ l /\ accepted x).
Proof.
  induction l as [|s l IH]; intros seen unique Hinv; cbn [fold_left].
  - split; [done | by left].
  - destruct (serial_step_inv seen unique s Hinv) as [Hinv' Hnew].
    destruct (serial_step (seen, unique) s) as [seen' unique'].
    destruct (IH seen' unique' Hinv') as [Hfinal Hfrom].
    split; [done|]. intros x Hx.
    destruct (Hfrom x Hx) as [Hx'|[Hx' Hacc]].
    + destruct (Hnew x Hx') as [?|[-> ?]]; [by left|].
      right. split; [left | done].
    + right. split; [by right | done].
Qed.

Lemma unique_serials_nodup (lines : list str) : NoDup (unique_serials lines).
Proof.
  unfold unique_serials.
  apply (serial_fold_inv (all_serials lines) ∅ []).
  split; [|apply NoDup_nil_2].
  intros x. split; [set_solver | intros Hx; by apply elem_of_nil in Hx].
Qed.

Lemma unique_serials_elem (lines : list str) (s : str) :
  s ∈ unique_serials lines -> is_number s /\ accepted s.
Proof.
  unfold unique_serials. intros Hs.
  assert (Hinit : seen_is (∅ : gset (list N)) []).
  { split; [|apply NoDup_nil_2].
    intros x. split; [set_solver | intros Hx; by apply elem_of_nil in Hx]. }
  destruct (serial_fold_inv (all_serials lines) ∅ [] Hinit) as [_ Hfrom].
  destruct (Hfrom s Hs) as [Hnil|[Hin Hacc]]; [by apply elem_of_nil in Hnil|].
  split; [by apply all_serials_number in Hin | done].
Qed.

(** Where a record of the result comes from. *)
Lemma extract_elem (clock : Clock) (text : str) (lines : list str)
    (info : ProductInfo) :
  info ∈ extract_all_products clock text lines ->
  (exists i pid, unique_ids lines !! i = Some pid /\
     info = new_product clock text pid (serial_at (unique_serials lines) i)) \/
  (unique_ids lines = [] /\
   exists s, s ∈ unique_serials lines /\ info = new_product clock text unknown s).
Proof.
  unfold extract_all_products.
  destruct (unique_ids lines) as [|pid ids] eqn:Hids.
  - destruct (unique_serials lines) as [|s serials] eqn:Hserials.
    + intros Hin. by apply elem_of_nil in Hin.
    + cbn [imap app]. intros Hin. right. split; [done|].
      apply list_elem_of_fmap in Hin as (s' & -> & Hs'). eauto.
  - intros Hin. left.
    apply elem_of_lookup_imap_1 in Hin as (i & pid' & -> & Hlook). eauto.
Qed.

End ExtractFacts.

(** ** Claims about the extractor *)

Section ExtractorClaims.
Context `{Unicode}.


(** The keyword loop in terms of the slices the code takes.  For a marker
    keyword found at index [p] of the lower-cased line, the candidate is
    the first that exists of: the first number of the line from index [p]
    plus the length of the keyword on, the last number of the line up to
    index [p], the first number of the previous line, the first number of
    the next line.  A line contributes at most one candidate, that of the
    first keyword (in the order mtk, yeye) which yields one; when mtk
    yields one, yeye plays no part. *)
Lemma serial_candidate_priority (lines : list str) (i : nat)
    (line serial_keyword : str) (p : nat) (acc : list str) :
  first_occurrence serial_keyword (lower line) p ->
  try_keyword lines i line serial_keyword =
    first_some [after_marker line serial_keyword p;
                before_marker line p;
                on_previous_line lines i;
                on_next_line lines i] /\
  keyword_loop lines i line serial_keywords acc =
    acc ++ option_list (line_candidate lines i line) /\
  (length (keyword_loop lines i line serial_keywords acc) <= S (length acc))%nat /\
  (forall num, try_keyword lines i line (cp "mtk") = Some num ->
     keyword_loop lines i line serial_keywords acc = acc ++ [num]) /\
  all_serials lines =
    concat (imap (fun j l => option_list (line_candidate lines j l)) lines).
Proof.
  intros Hp. split; [by apply try_keyword_present|].
  split; [apply keyword_loop_spec|].
  split; [|split; [|apply all_serials_spec]].
  - rewrite keyword_loop_spec, length_app.
    destruct (first_some _); simpl; lia.
  - intros num Hnum. rewrite keyword_loop_spec. unfold line_candidate.
    cbn [List.map serial_keywords first_some]. by rewrite Hnum.
Qed.

(** C3.  A serial number of an extracted record that is not ["unknown"]
    consists of one to four digits and has a value between 1 and 9999.
    The line ["mtk 99999"] alone gives no candidate and no record. *)
Theorem extracted_serial_range (clock : Clock) (text : str) (lines : list str)
    (info : ProductInfo) :
  (info ∈ extract_all_products clock text lines ->
   serial_number info <> unknown ->
   (1 <= length (serial_number info) <= 4)%nat /\
   forallb isdigit (serial_number info) = true /\
   exists num_value, py_int (serial_number info) = Some num_value /\
                     1 <= num_value <= 9999) /\
  @all_serials ascii_tables [cp "mtk 99999"] = [] /\
  @extract_all_products ascii_tables clock text [cp "mtk 99999"] = [].
Proof.
  split; [|split; reflexivity].
  intros Hin Hknown.
  assert (Hs : serial_number info ∈ unique_serials lines).
  { apply extract_elem in Hin as [(i & pid & Hi & ->)|(_ & s & Hs & ->)];
      cbn [serial_number new_product] in *; [|done].
    unfold serial_at in *. destruct (unique_serials lines !! i) eqn:E; [|done].
    apply list_elem_of_lookup. eauto. }
  apply unique_serials_elem in Hs as [[Hlen Hdigits] Hacc]. done.
Qed.

End ExtractorClaims.

Lemma mtk_at_3 : first_occurrence (cp "mtk") (lower (cp "12 MTK 7")) 3.
Proof.
  split; [reflexivity|]. split; [vm_compute; lia|].
  intros [|[|[|q]]] Hq; [reflexivity .. | lia].
Defined.


Lemma serial_candidate_priority_witness :
  first_occurrence (cp "mtk") (lower (cp "12 MTK 7")) 3 /\
  try_keyword [cp "5"; cp "12 MTK 7"; cp "6"] 1 (cp "12 MTK 7") (cp "mtk")
  = Some (cp "7").
Proof.
  split; [exact mtk_at_3|].
  exact (proj1 (serial_candidate_priority
                  [cp "5"; cp "12 MTK 7"; cp "6"] 1 (cp "12 MTK 7") (cp "mtk") 3 []
                  mtk_at_3)).
Defined.

(** C2.  The index of the marker is found in the lower-cased line and
    applied to the line itself.  In the line made of U+0130, the marker
    mtk and the text [12 34], lower-casing puts the marker one place
    further (index 2 instead of 1), so the code searches [2 34] and takes
    2, although the first number after the marker on the line is 12; the
    record of that frame has the serial number 2. *)
Theorem lowered_index_cuts_the_line :
  str_find (@lower dotted_tables dotted_line) (cp "mtk") = 2 /\
  slice_from dotted_line (2 + len (cp "mtk")) = cp "2 34" /\
  @try_keyword dotted_tables [dotted_line] 0 dotted_line (cp "mtk")
    = Some (cp "2") /\
  head (@numbers dotted_tables (cp "12 34")) = Some (cp "12") /\
  @extract_all_products dotted_tables sample_clock [] [dotted_line]
    = [new_product sample_clock [] unknown (cp "2")].
Proof. repeat split; vm_compute; reflexivity. Qed.

Lemma extracted_serial_range_witness :
  let info := new_product sample_clock [] (cp "41") (cp "2532") in
  info ∈ extract_all_products sample_clock [] [cp "ID: 41"; cp "mtk 2532"] /\
  serial_number info <> unknown /\
  exists num_value, py_int (serial_number info) = Some num_value /\
                    1 <= num_value <= 9999.
Proof.
  intros info.
  assert (Hin : info ∈ extract_all_products sample_clock []
                         [cp "ID: 41"; cp "mtk 2532"]) by (vm_compute; left).
  assert (Hknown : serial_number info <> unknown) by (vm_compute; discriminate).
  split; [exact Hin|]. split; [exact Hknown|].
  exact (proj2 (proj2 (proj1 (extracted_serial_range sample_clock []
                         [cp "ID: 41"; cp "mtk 2532"] info) Hin Hknown))).
Defined.

(** C5.  The candidate search does not exclude the lines that carry an ID:
    with the marker alone on its line and the ID on the next one, or with
    the ID before the marker on the same line, the digits of the ID are
    taken as the serial. *)
Theorem id_digits_taken_as_serial :
  all_serials [cp "mtk"; cp "ID: 41"] = [cp "41"] /\
  extract_all_products sample_clock [] [cp "mtk"; cp "ID: 41"]
    = [new_product sample_clock [] (cp "41") (cp "41")] /\
  extract_all_products sample_clock [] [cp "ID: 41 mtk"]
    = [new_product sample_clock [] (cp "41") (cp "41")].
Proof. repeat split; vm_compute; reflexivity. Qed.

(** ** Paths and file names *)

Lemma sanitize_legal (filename : str) (c : N) :
  c ∈ sanitize filename -> legal c.
Proof.
  unfold sanitize. intros Hin.
  apply list_elem_of_fmap in Hin as (d & -> & _).
  unfold legal. destruct (one_of illegal_chars d) eqn:Hd; [reflexivity | exact Hd].
Qed.

Lemma sanitize_app (a b : str) : sanitize (a ++ b) = sanitize a ++ sanitize b.
Proof. unfold sanitize. apply List.map_app. Qed.

Lemma sanitize_id (s : str) : Forall legal s -> sanitize s = s.
Proof.
  unfold sanitize. induction 1 as [|c s Hc _ IH]; cbn [List.map]; [done|].
  unfold legal in Hc. by rewrite Hc, IH.
Qed.


Lemma legal_not_slash (c : N) : legal c -> c <> slash.
Proof. intros Hc ->. discriminate Hc. Qed.

Lemma split_on_no_sep (sep : N) (s : str) :
  Forall (fun c => c <> sep) s -> split_on sep s = [s].
Proof.
  induction 1 as [|c s Hc _ IH]; simpl; [done|].
  apply N.eqb_neq in Hc. by rewrite Hc, IH.
Qed.

Lemma path_root_no_slash (s : str) :
  Forall (fun c => c <> slash) s -> path_root s = [].
Proof.
  destruct 1 as [|c s Hc _]; [done|]. unfold slash in Hc. simpl.
  destruct c as [|q]; [done|]. repeat (destruct q as [q|q|]; try done).
Qed.

Lemma parse_path_no_slash (s : str) :
  Forall (fun c => c <> slash) s ->
  parse_path s = {| root := []; parts := if keep_part s then [s] else [] |}.
Proof.
  intros Hs. unfold parse_path, path_parts.
  rewrite path_root_no_slash, split_on_no_sep by done.
  simpl. by destruct (keep_part s).
Qed.

Lemma path_join_no_slash (p : Path) (s : str) :
  Forall (fun c => c <> slash) s ->
  path_join p s =
  {| root := root p; parts := parts p ++ (if keep_part s then [s] else []) |}.
Proof. intros Hs. unfold path_join. by rewrite parse_path_no_slash. Qed.

Lemma join_nonempty (sep : str) (ps : list str) (w : str) :
  w ∈ ps -> w <> [] -> join sep ps <> [].
Proof.
  induction ps as [|a ps IH]; intros Hin Hw; [by apply elem_of_nil in Hin|].
  apply elem_of_cons in Hin as [<- | Hin].
  - destruct ps; simpl; [done|]. by destruct w.
  - specialize (IH Hin Hw). destruct ps as [|b ps]; [done|].
    change (join sep (a :: b :: ps)) with (a ++ sep ++ join sep (b :: ps)).
    intros E. apply app_eq_nil in E as [_ E]. apply app_eq_nil in E as [_ E]. done.
Qed.

Lemma path_str_nonempty (p : Path) :
  root p <> [] \/ (exists w, w ∈ parts p /\ w <> []) -> path_str p <> [].
Proof.
  unfold path_str. intros Hp.
  destruct (root p) as [|c r] eqn:Hr.
  - destruct Hp as [?|(w & Hin & Hw)]; [done|].
    destruct (parts p) as [|a ps] eqn:Hps; [done|].
    change (join (cp "/") (a :: ps) <> []). by apply (join_nonempty _ _ w).
  - by destruct (parts p).
Qed.

(** The folder [ID_...] is never an empty or absolute segment. *)
Lemma id_folder_parts (pid : str) :
  path_root (cp "ID_" ++ pid) = [] /\
  exists w, w ∈ path_parts (cp "ID_" ++ pid) /\ w <> [].
Proof.
  split; [reflexivity|].
  unfold path_parts. change (cp "ID_" ++ pid) with (73 :: 68 :: 95 :: pid)%N.
  cbn [split_on N.eqb Pos.eqb slash].
  destruct (split_on slash pid) as [|w ws].
  - exists (cp "ID_"). split; [vm_compute; left | done].
  - exists (73 :: 68 :: 95 :: w)%N. split; [|done].
    cbn [List.filter]. replace (keep_part (73 :: 68 :: 95 :: w)%N) with true; [left|].
    unfold keep_part. symmetry. apply negb_true_iff, bool_decide_eq_false.
    intros [E|E]; discriminate E.
Qed.

Section StoreFacts.
Context `{Unicode}.
Context {Image : Type}.
Variable self : Monitor Image.

Lemma date_folder_nonempty (info : ProductInfo) :
  root (date_folder self info) <> [] \/
  exists w, w ∈ parts (date_folder self info) /\ w <> [].
Proof.
  unfold date_folder.
  destruct (id_folder_parts (product_id info)) as [Hroot (w & Hw & Hne)].
  set (folder := path_join (save_dir self) (cp "ID_" ++ product_id info)).
  assert (Hin : w ∈ parts folder).
  { subst folder. unfold path_join, parse_path. cbn [root parts]. rewrite Hroot.
    cbn [parts]. apply elem_of_app. by right. }
  clearbody folder. unfold path_join.
  destruct (root (parse_path (label_date info))) as [|c r] eqn:Hr.
  - right. exists w. split; [|done]. cbn [parts]. apply elem_of_app. by left.
  - left. by rewrite Hr.
Qed.

Lemma save_path_parts (info : ProductInfo) :
  let filename := sanitize (serial_number info ++ cp "." ++ img_format self) in
  root (save_path self info) = root (date_folder self info) /\
  parts (save_path self info) =
    parts (date_folder self info) ++ (if keep_part filename then [filename] else []).
Proof.
  intros filename. unfold save_path. fold filename.
  rewrite path_join_no_slash; [done|].
  apply Forall_forall. intros c Hc.
  apply legal_not_slash. eapply sanitize_legal. exact Hc.
Qed.

Lemma save_path_str_nonempty (info : ProductInfo) :
  path_str (save_path self info) <> [].
Proof.
  apply path_str_nonempty.
  destruct (save_path_parts info) as [Hroot Hparts].
  destruct (date_folder_nonempty info) as [Hr|(w & Hw & Hne)].
  - left. by rewrite Hroot.
  - right. exists w. split; [|done]. rewrite Hparts. apply elem_of_app. by left.
Qed.

Lemma is_duplicate_mono (fs fs' : gset Path) (info : ProductInfo) :
  fs ⊆ fs' -> is_duplicate self fs info = true -> is_duplicate self fs' info = true.
Proof.
  unfold is_duplicate, path_exists. intros Hsub.
  rewrite !orb_true_iff, !bool_decide_eq_true.
  intros [Hjpg|Hpng]; [left | right]; by apply Hsub.
Qed.

End StoreFacts.

(** ** Extracted serial numbers need no sanitizing *)

Lemma digit_legal (c : N) : ascii_isdigit c = true -> legal c.
Proof.
  unfold ascii_isdigit, in_range. intros Hc.
  apply andb_true_iff in Hc as [Hlo Hhi]. apply N.leb_le in Hlo, Hhi.
  unfold legal, one_of, illegal_chars. cbn [existsb].
  rewrite !orb_false_iff. repeat split; try (apply N.eqb_neq; lia).
Qed.

Lemma unknown_legal : Forall legal unknown.
Proof. repeat constructor. Qed.

Lemma extracted_serial_legal `{Unicode} (clock : Clock) (text : str)
    (lines : list str) (info : ProductInfo) :
  (forall c, isdigit c = true -> legal c) ->
  info ∈ extract_all_products clock text lines ->
  Forall legal (serial_number info).
Proof.
  intros Hdigit Hin.
  assert (Hnumber : forall s, s ∈ unique_serials lines -> Forall legal s).
  { intros s Hs. apply unique_serials_elem in Hs as [[_ Hdigits] _].
    apply Forall_forall. intros c Hc. apply Hdigit.
    rewrite forallb_forall in Hdigits. by apply Hdigits, list_elem_of_In. }
  apply extract_elem in Hin as [(i & pid & _ & ->)|(_ & s & Hs & ->)];
    cbn [serial_number new_product]; [|by apply Hnumber].
  unfold serial_at. destruct (unique_serials lines !! i) as [s|] eqn:Hs.
  - apply Hnumber, list_elem_of_lookup. eauto.
  - apply unknown_legal.
Qed.

(** ** Claims about the capture store and the duplicate check *)

Section StoreClaims.
Context `{Unicode}.
Context {Image : Type}.
Variable self : Monitor Image.
Variable world : World.

(** C6, as amended.  When the configured format, lower-cased, is png or
    jpg, the serial number has none of the nine replaced characters, the
    folder can be made and the encoder writes the file, [is_duplicate]
    answers true for the record right after [save_screenshot]. *)
Theorem save_then_duplicate (image : Image) (info : ProductInfo) (fs : gset Path) :
  img_format self = cp "png" \/ img_format self = cp "jpg" ->
  Forall legal (serial_number info) ->
  mkdir_fails world (date_folder self info) = false ->
  imwrite world (save_path self info) = Written ->
  exists filepath fs',
    save_screenshot self world image info fs = (Returns filepath, fs') /\
    is_duplicate self fs' info = true.
Proof.
  intros Hformat Hlegal Hmkdir Hwrite.
  unfold save_screenshot. rewrite Hmkdir, Hwrite.
  eexists _, _. split; [reflexivity|].
  unfold is_duplicate, path_exists.
  apply orb_true_iff.
  assert (Hname : forall ext, img_format self = ext -> Forall legal ext ->
            save_path self info = path_join (date_folder self info)
                                    (serial_number info ++ cp "." ++ ext)).
  { intros ext Hext Hext_legal. unfold save_path. rewrite Hext.
    rewrite sanitize_id; [done|].
    apply Forall_app. split; [done|]. apply Forall_app. split; [|done].
    by repeat constructor. }
  destruct Hformat as [Hpng|Hjpg]; [right | left];
    apply bool_decide_eq_true, elem_of_union_r, elem_of_singleton.
  - symmetry. apply (Hname _ Hpng). by repeat constructor.
  - symmetry. apply (Hname _ Hjpg). by repeat constructor.
Qed.


(** C10.  [save_screenshot] returns the path it built whether the encoder
    reports success or not: when the encoder returns false the call still
    returns the same non-empty string, the tree holds no new file, and the
    loop of [run_once] sets [filepath] and lists the record as saved. *)
Theorem save_ignores_encoder_status (image : Image) (info : ProductInfo)
    (fs : gset Path) :
  mkdir_fails world (date_folder self info) = false ->
  imwrite world (save_path self info) = NotWritten ->
  save_screenshot self world image info fs =
    (Returns (path_str (save_path self info)),
     fs ∪ list_to_set (with_parents (date_folder self info))) /\
  path_str (save_path self info) <> [] /\
  (forall world', mkdir_fails world' (date_folder self info) = false ->
     imwrite world' (save_path self info) = Written ->
     fst (save_screenshot self world' image info fs) =
     fst (save_screenshot self world image info fs)) /\
  forall i st,
    objects st !! i = Some info ->
    classifier self = None ->
    is_duplicate self (tree st) info = false ->
    visit self world image i st =
      (Returns tt,
       {| tree := tree st ∪ list_to_set (with_parents (date_folder self info));
          objects := <[i := set_filepath info (path_str (save_path self info))]>
                       (<[i := info]> (objects st));
          saved_products := saved_products st ++ [i] |}).
Proof.
  intros Hmkdir Hfail.
  assert (Hsave : forall fs0, save_screenshot self world image info fs0 =
            (Returns (path_str (save_path self info)),
             fs0 ∪ list_to_set (with_parents (date_folder self info)))).
  { intros fs0. unfold save_screenshot. by rewrite Hmkdir, Hfail. }
  split; [apply Hsave|]. split; [apply save_path_str_nonempty|]. split.
  - intros world' Hmkdir' Hwrite. rewrite Hsave.
    unfold save_screenshot. by rewrite Hmkdir', Hwrite.
  - intros i st Hi Hnone Hdup. unfold visit. rewrite Hi, Hdup.
    unfold classify. rewrite Hnone. cbn [tree]. by rewrite Hsave.
Qed.

End StoreClaims.

(** ** The loop of a cycle *)

Lemma same_core_refl (a : ProductInfo) : same_core a a.
Proof. by repeat split. Qed.

Lemma same_core_trans (a b c : ProductInfo) :
  same_core a b -> same_core b c -> same_core a c.
Proof.
  intros (?&?&?&?&?) (?&?&?&?&?). repeat split; congruence.
Qed.

Create HintDb cycle.
#[global] Hint Resolve same_core_refl : cycle.

Section CycleFacts.
Context `{Unicode}.
Context {Image : Type}.
Variable self : Monitor Image.
Variable world : World.

Lemma classify_core (image : Image) (info : ProductInfo) :
  same_core info (classify self image info) /\
  filepath (classify self image info) = filepath info /\
  (classifier self = None -> classify self image info = info).
Proof.
  unfold classify. destruct (classifier self) as [predict|].
  - destruct (predict image); by repeat split.
  - by repeat split.
Qed.

Lemma save_path_core (a b : ProductInfo) :
  same_core a b -> save_path self a = save_path self b.
Proof.
  intros (Hid & Hserial & Hdate & _). unfold save_path, date_folder.
  by rewrite Hid, Hserial, Hdate.
Qed.

Lemma is_duplicate_core (fs : gset Path) (a b : ProductInfo) :
  same_core a b -> is_duplicate self fs a = is_duplicate self fs b.
Proof.
  intros (Hid & Hserial & Hdate & _). unfold is_duplicate, date_folder.
  by rewrite Hid, Hserial, Hdate.
Qed.

(** The three ways [save_screenshot] can end. *)
Lemma save_cases (image : Image) (info : ProductInfo) (fs : gset Path) :
  (exists fs', save_screenshot self world image info fs =
                 (Returns (path_str (save_path self info)), fs') /\ fs ⊆ fs') \/
  (exists e, save_screenshot self world image info fs = (Raises e, fs) /\
             mkdir_fails world (date_folder self info) = true) \/
  (exists e fs', save_screenshot self world image info fs = (Raises e, fs') /\
                 fs ⊆ fs' /\ imwrite world (save_path self info) = EncodeError).
Proof.
  unfold save_screenshot.
  destruct (mkdir_fails world (date_folder self info)); [right; left; eauto|].
  destruct (imwrite world (save_path self info)) eqn:Hw.
  - left. eexists. split; [reflexivity | set_solver].
  - left. eexists. split; [reflexivity | set_solver].
  - right. right. eexists _, _. split; [reflexivity|]. split; [set_solver | done].
Qed.

Lemma visit_visited (image : Image) (i : nat) (st : Cycle) :
  visited self world image i st (visit self world image i st).
Proof.
  unfold visit. destruct (objects st !! i) as [info|] eqn:Hi; [|by constructor].
  destruct (is_duplicate self (tree st) info) eqn:Hdup;
    [by econstructor|].
  cbn [tree objects saved_products].
  destruct (save_cases image (classify self image info) (tree st))
    as [(fs' & -> & Hsub)|[(e & -> & Hmk)|(e & fs' & -> & Hsub & Hw)]].
  - rewrite list_insert_insert_eq. by econstructor.
  - econstructor; eauto.
  - econstructor; eauto.
Qed.

End CycleFacts.

Section CycleInvariants.
Context `{Unicode}.
Context {Image : Type}.
Variable self : Monitor Image.
Variable world : World.

Lemma evolves_refl (st : Cycle) : evolves st st.
Proof. split; [done|]. split; [done|]. eauto with cycle. Qed.

Lemma evolves_trans (a b c : Cycle) : evolves a b -> evolves b c -> evolves a c.
Proof.
  intros (Ht & Hs & Ho) (Ht' & Hs' & Ho'). split; [set_solver|]. split; [eauto|].
  intros j o Hj. destruct (Ho j o Hj) as (o' & Hj' & Hc).
  destruct (Ho' j o' Hj') as (o'' & Hj'' & Hc'). eauto using same_core_trans.
Qed.

Lemma insert_core (os : list ProductInfo) (i : nat) (old new : ProductInfo) :
  os !! i = Some old -> same_core old new ->
  forall j o, os !! j = Some o ->
    exists o', <[i := new]> os !! j = Some o' /\ same_core o o'.
Proof.
  intros Hi Hcore j o Hj. destruct (decide (i = j)) as [->|Hne].
  - exists new. rewrite list_lookup_insert_eq by (by eapply lookup_lt_Some).
    split; [done | congruence].
  - exists o. rewrite list_lookup_insert_ne by done. eauto with cycle.
Qed.

Lemma set_filepath_core (info : ProductInfo) (filepath : str) :
  same_core info (set_filepath info filepath).
Proof. by repeat split. Qed.

Lemma visit_evolves (image : Image) (i : nat) (st : Cycle) :
  evolves st (snd (visit self world image i st)).
Proof.
  destruct (visit_visited self world image i st)
    as [Hi|info Hi Hdup|info fs' Hi Hdup Hsub|info e fs' Hi Hdup Hsub Hwhy];
    cbn [snd]; try apply evolves_refl.
  - split; [done|]. split; [intros k Hk; apply elem_of_app; by left|].
    apply (insert_core _ _ info); [done|].
    eapply same_core_trans;
      [apply (proj1 (classify_core self image info)) | apply set_filepath_core].
  - split; [done|]. split; [done|].
    apply (insert_core _ _ info);
      [done | apply (proj1 (classify_core self image info))].
Qed.

Lemma visit_all_evolves (image : Image) (indices : list nat) :
  forall st, evolves st (snd (visit_all self world image indices st)).
Proof.
  induction indices as [|i rest IH]; intros st; cbn [visit_all].
  - apply evolves_refl.
  - pose proof (visit_evolves image i st) as Hstep.
    destruct (visit self world image i st) as [[[]|e] st1]; cbn [snd] in *.
    + eapply evolves_trans; [exact Hstep | apply IH].
    + exact Hstep.
Qed.

(** A visit that does not raise leaves the record saved or duplicate. *)
Lemma visit_processed (image : Image) (i : nat) (st : Cycle) (info : ProductInfo) :
  (forall p, mkdir_fails world p = false) ->
  (forall p, imwrite world p <> EncodeError) ->
  objects st !! i = Some info ->
  exists st', visit self world image i st = (Returns tt, st') /\
    (i ∈ saved_products st' \/ is_duplicate self (tree st') info = true).
Proof.
  intros Hmk Hw Hi.
  destruct (visit_visited self world image i st)
    as [Hi'|info' Hi' Hdup|info' fs' Hi' Hdup Hsub|info' e fs' Hi' Hdup Hsub Hwhy].
  - congruence.
  - eexists. split; [reflexivity|]. right. congruence.
  - eexists. split; [reflexivity|]. left. cbn [saved_products].
    apply elem_of_app. right. left.
  - destruct Hwhy as [Hbad|Hbad]; [by rewrite Hmk in Hbad | by apply Hw in Hbad].
Qed.

Lemma visit_all_processed (image : Image) (indices : list nat) :
  (forall p, mkdir_fails world p = false) ->
  (forall p, imwrite world p <> EncodeError) ->
  forall st, exists st',
    visit_all self world image indices st = (Returns tt, st') /\
    forall i info, i ∈ indices -> objects st !! i = Some info ->
      i ∈ saved_products st' \/ is_duplicate self (tree st') info = true.
Proof.
  intros Hmk Hw. induction indices as [|i rest IH]; intros st; cbn [visit_all].
  - eexists. split; [reflexivity|]. intros i info Hin. by apply elem_of_nil in Hin.
  - pose proof (visit_evolves image i st) as (Htree & Hsaved & Hobjs).
    destruct (objects st !! i) as [info_i|] eqn:Hi.
    + destruct (visit_processed image i st info_i Hmk Hw Hi) as (st1 & Hv & Hdone).
      rewrite Hv in *. cbn [snd] in *.
      destruct (IH st1) as (st' & Hall & Hrest). exists st'. split; [exact Hall|].
      pose proof (visit_all_evolves image rest st1) as Hev.
      rewrite Hall in Hev. destruct Hev as (Htree' & Hsaved' & _).
      intros j info Hj Hlook. apply elem_of_cons in Hj as [->|Hj].
      * assert (info = info_i) as -> by congruence.
        destruct Hdone as [Hs|Hd]; [left; by apply Hsaved'|].
        right. by apply (is_duplicate_mono self (tree st1)).
      * destruct (Hobjs j info Hlook) as (o' & Hlook' & Hcore).
        rewrite (is_duplicate_core self _ _ _ Hcore). by apply (Hrest j o').
    + assert (Hv : visit self world image i st = (Returns tt, st))
        by (unfold visit; by rewrite Hi).
      rewrite Hv. destruct (IH st) as (st' & Hall & Hrest).
      exists st'. split; [exact Hall|].
      intros j info Hj Hlook. apply elem_of_cons in Hj as [->|Hj]; [congruence|].
      by apply Hrest.
Qed.

End CycleInvariants.

Section RecordFrame.
Context `{Unicode}.
Context {Image : Type}.
Variable self : Monitor Image.
Variable world : World.

Lemma cycle_inv_weaken (products : list ProductInfo) (i : nat) (rest : list nat)
    (st : Cycle) :
  cycle_inv self products (i :: rest) st -> cycle_inv self products rest st.
Proof.
  intros (Hlen & Hobj & Hnd & Htodo). repeat split; try done.
  intros k Hk Hin. apply (Htodo k Hk). by right.
Qed.

Lemma visit_inv (products : list ProductInfo) (image : Image) (i : nat)
    (rest : list nat) (st : Cycle) :
  NoDup (i :: rest) ->
  cycle_inv self products (i :: rest) st ->
  cycle_inv self products rest (snd (visit self world image i st)).
Proof.
  intros Hnodup Hinv. pose proof Hinv as (Hlen & Hobj & Hnd & Htodo).
  assert (Hfresh : i ∉ saved_products st).
  { intros Hin. apply (Htodo i Hin). left. }
  apply NoDup_cons in Hnodup as [Hi_rest _].
  destruct (visit_visited self world image i st)
    as [Hi|cur Hi Hdup|cur fs' Hi Hdup Hsub|cur e fs' Hi Hdup Hsub Hwhy];
    cbn [snd]; try (by apply (cycle_inv_weaken _ i)).
  - (* saved *)
    destruct (classify_core self image cur) as (Hcore & Hpath & Hsame).
    split; [cbn [objects]; by rewrite length_insert|]. split; [|split].
    + intros j info Hj. destruct (Hobj j info Hj) as (info' & Hj' & Hok).
      cbn [objects saved_products].
      destruct (decide (i = j)) as [->|Hne].
      * assert (info' = cur) as -> by congruence.
        destruct Hok as (Hc & Hstyle & _ & _).
        eexists. rewrite list_lookup_insert_eq by (by eapply lookup_lt_Some).
        split; [reflexivity|]. split; [|split; [|split]].
        -- eapply same_core_trans; [exact Hc|].
           eapply same_core_trans; [exact Hcore | apply set_filepath_core].
        -- intros Hnone. cbn [style_category set_filepath].
           rewrite (Hsame Hnone). by apply Hstyle.
        -- intros _. reflexivity.
        -- intros Hnot. exfalso. apply Hnot, elem_of_app. right. left.
      * exists info'. rewrite list_lookup_insert_ne by done.
        split; [done|]. destruct Hok as (Hc & Hstyle & Hin & Hout).
        split; [done|]. split; [done|]. split.
        -- intros Hj_saved. apply Hin.
           apply elem_of_app in Hj_saved as [?|Hj_saved]; [done|].
           apply list_elem_of_singleton in Hj_saved. congruence.
        -- intros Hj_not. apply Hout. intros Hj_saved. apply Hj_not.
           apply elem_of_app. by left.
    + cbn [saved_products]. apply NoDup_app. split; [done|].
      split; [|apply NoDup_singleton].
      intros k Hk Hk'. apply list_elem_of_singleton in Hk'. congruence.
    + cbn [saved_products]. intros k Hk Hin.
      apply elem_of_app in Hk as [Hk|Hk].
      * apply (Htodo k Hk). by right.
      * apply list_elem_of_singleton in Hk. congruence.
  - (* the save raised *)
    destruct (classify_core self image cur) as (Hcore & Hpath & Hsame).
    split; [cbn [objects]; by rewrite length_insert|]. split; [|split].
    + intros j info Hj. destruct (Hobj j info Hj) as (info' & Hj' & Hok).
      cbn [objects saved_products].
      destruct (decide (i = j)) as [->|Hne].
      * assert (info' = cur) as -> by congruence.
        destruct Hok as (Hc & Hstyle & _ & Hout).
        eexists. rewrite list_lookup_insert_eq by (by eapply lookup_lt_Some).
        split; [reflexivity|]. split; [|split; [|split]].
        -- eapply same_core_trans; [exact Hc | exact Hcore].
        -- intros Hnone. rewrite (Hsame Hnone). by apply Hstyle.
        -- intros Hin. done.
        -- intros _. rewrite Hpath. by apply Hout.
      * exists info'. by rewrite list_lookup_insert_ne by done.
    + done.
    + cbn [saved_products]. intros k Hk Hin. apply (Htodo k Hk). by right.
Qed.

Lemma visit_all_inv (products : list ProductInfo) (image : Image)
    (todo : list nat) :
  NoDup todo ->
  forall st, cycle_inv self products todo st ->
             cycle_inv self products [] (snd (visit_all self world image todo st)).
Proof.
  induction todo as [|i rest IH]; intros Hnodup st Hinv; cbn [visit_all].
  - exact Hinv.
  - pose proof (visit_inv products image i rest st Hnodup Hinv) as Hstep.
    apply NoDup_cons in Hnodup as [_ Hrest].
    destruct (visit self world image i st) as [[[]|e] st1]; cbn [snd] in *.
    + by apply IH.
    + destruct Hstep as (Hlen & Hobj & Hnd & _). repeat split; try done.
      intros k _ Hin. by apply elem_of_nil in Hin.
Qed.

Lemma extract_fresh (clock : Clock) (text : str) (lines : list str)
    (info : ProductInfo) :
  info ∈ extract_all_products clock text lines ->
  filepath info = [] /\ style_category info = None.
Proof.
  intros Hin.
  by apply extract_elem in Hin as [(i & pid & _ & ->)|(_ & s & _ & ->)].
Qed.

End RecordFrame.

(** ** Claims about one detection cycle *)

Section CycleClaims.
Context `{Unicode}.
Context {Image : Type}.
Variable self : Monitor Image.
Variable world : World.

(** C8, as amended.  A record that is a duplicate, whose classification
    raises, or whose encode reports failure by returning false does not
    stop the loop: when no call inside [save_screenshot] raises, the loop
    ends normally and every record is then saved or a duplicate.  An
    exception raised inside [save_screenshot] leaves the loop at once, so
    the records after the failing one are not visited. *)
Theorem siblings_processed_unless_save_raises (image : Image)
    (indices : list nat) (st : Cycle) :
  ((forall p, mkdir_fails world p = false) ->
   (forall p, imwrite world p <> EncodeError) ->
   exists st',
     visit_all self world image indices st = (Returns tt, st') /\
     forall i info, i ∈ indices -> objects st !! i = Some info ->
       i ∈ saved_products st' \/ is_duplicate self (tree st') info = true) /\
  (forall i rest e st1,
     visit self world image i st = (Raises e, st1) ->
     visit_all self world image (i :: rest) st = (Raises e, st1)).
Proof.
  split.
  - intros Hmk Hw. by apply visit_all_processed.
  - intros i rest e st1 Hv. cbn [visit_all]. by rewrite Hv.
Qed.

(** C9, as amended.  After a cycle every object still has the five fields
    the extractor gave it; [filepath] is the returned path for the records
    listed as saved, each listed once, and is still empty for the others;
    and without a classifier nothing else is set.  (With a classifier the
    loop also sets [style_category].) *)
Theorem only_filepath_is_assigned (clock : Clock) (image : Image) (text : str)
    (lines : list str) (fs : gset Path) :
  let products := extract_all_products clock text lines in
  let st := snd (run_once self world clock image text lines fs) in
  NoDup (saved_products st) /\
  forall i info', objects st !! i = Some info' ->
    exists info, products !! i = Some info /\
      same_core info info' /\
      (classifier self = None -> style_category info' = None) /\
      (i ∈ saved_products st ->
         filepath info' = path_str (save_path self info') /\ filepath info' <> []) /\
      (i ∉ saved_products st -> filepath info' = []).
Proof.
  intros products st.
  assert (Hidle : forall st0, objects st0 = [] -> saved_products st0 = [] ->
            NoDup (saved_products st0) /\
            forall i info', objects st0 !! i = Some info' ->
              exists info, products !! i = Some info /\
                same_core info info' /\
                (classifier self = None -> style_category info' = None) /\
                (i ∈ saved_products st0 ->
                   filepath info' = path_str (save_path self info') /\
                   filepath info' <> []) /\
                (i ∉ saved_products st0 -> filepath info' = [])).
  { intros st0 -> ->. split; [apply NoDup_nil_2|]. intros i info' Hi. done. }
  subst st. unfold run_once.
  destruct lines as [|line0 rest]; [by apply Hidle|].
  destruct (check_trigger _ _); cbn [negb]; [|by apply Hidle].
  fold products.
  destruct products as [|first others] eqn:Hproducts; [by apply Hidle|].
  rewrite <- Hproducts in *.
  set (st0 := {| tree := fs; objects := products; saved_products := [] |}).
  assert (Hinit : cycle_inv self products (seq 0 (length products)) st0).
  { split; [done|]. split; [|split; [apply NoDup_nil_2|]].
    - intros i info Hi. exists info. split; [done|].
      split; [apply same_core_refl|]. split; [done|].
      split; [intros Hin; by apply elem_of_nil in Hin | done].
    - intros i Hin. by apply elem_of_nil in Hin. }
  pose proof (visit_all_inv self world products image _
                (NoDup_seq 0 (length products)) st0 Hinit) as Hfinal.
  assert (Hgoal : forall st1,
            cycle_inv self products [] st1 ->
            NoDup (saved_products st1) /\
            forall i info', objects st1 !! i = Some info' ->
              exists info, products !! i = Some info /\
                same_core info info' /\
                (classifier self = None -> style_category info' = None) /\
                (i ∈ saved_products st1 ->
                   filepath info' = path_str (save_path self info') /\
                   filepath info' <> []) /\
                (i ∉ saved_products st1 -> filepath info' = [])).
  { intros st1 (Hlen & Hobj & Hnd & _). split; [done|].
    intros i info' Hi.
    assert (Hlt : (i < length products)%nat)
      by (rewrite <- Hlen; by eapply lookup_lt_Some).
    apply lookup_lt_is_Some_2 in Hlt as [info Hinfo].
    destruct (Hobj i info Hinfo) as (info'' & Hi' & Hcore & Hstyle & Hin & Hout).
    assert (info'' = info') as -> by congruence.
    assert (Hfresh : filepath info = [] /\ style_category info = None).
    { apply (extract_fresh clock text (line0 :: rest)).
      apply list_elem_of_lookup. eauto. }
    destruct Hfresh as [Hpath0 Hstyle0].
    exists info. split; [done|]. split; [done|].
    split; [intros Hnone; by rewrite Hstyle|]. split.
    - intros Hsaved. split; [by apply Hin|]. rewrite (Hin Hsaved).
      apply save_path_str_nonempty.
    - intros Hnot. by rewrite Hout. }
  destruct (visit_all self world image (seq 0 (length products)) st0)
    as [[[]|e] st1] eqn:Hrun; cbn [snd] in *; by apply Hgoal.
Qed.

End CycleClaims.

(** ** Worked cases *)

(** C6, counterexample.  With the format jpeg the file is written as
    [7.jpeg], which the duplicate check does not look for. *)
Lemma jpeg_saved_but_not_duplicate :
  let r := save_screenshot (sample_monitor "jpeg") kind_world tt sample_record ∅ in
  fst r = Returns (cp "screenshots/ID_41/11-17/7.jpeg") /\
  path_exists (snd r) (save_path (sample_monitor "jpeg") sample_record) = true /\
  is_duplicate (sample_monitor "jpeg") (snd r) sample_record = false.
Proof. vm_compute. done. Qed.

Lemma save_then_duplicate_witness :
  img_format (sample_monitor "PNG") = cp "png" /\
  exists filepath fs',
    save_screenshot (sample_monitor "PNG") kind_world tt sample_record ∅
      = (Returns filepath, fs') /\
    is_duplicate (sample_monitor "PNG") fs' sample_record = true.
Proof.
  split; [reflexivity|].
  apply (save_then_duplicate (sample_monitor "PNG") kind_world tt sample_record ∅).
  - left. reflexivity.
  - repeat constructor.
  - reflexivity.
  - reflexivity.
Defined.



(** C8, counterexample.  The encoder raises for the first of two records:
    the call ends with the exception, and the second record is neither
    saved nor a duplicate. *)
Lemma save_failure_skips_siblings :
  let r := run_once (sample_monitor "png") failing_world sample_clock tt []
                    two_labels ∅ in
  let second := new_product sample_clock [] (cp "42") (cp "200") in
  fst r = Raises CvError /\
  saved_products (snd r) = [] /\
  objects (snd r) !! 1%nat = Some second /\
  is_duplicate (sample_monitor "png") (tree (snd r)) second = false.
Proof. vm_compute. done. Qed.

Lemma siblings_processed_witness :
  let st := {| tree := ∅;
               objects := extract_all_products sample_clock [] two_labels;
               saved_products := [] |} in
  exists st',
    visit_all (sample_monitor "png") silent_world tt [0; 1]%nat st = (Returns tt, st') /\
    forall i info, i ∈ [0; 1]%nat -> objects st !! i = Some info ->
      i ∈ saved_products st' \/
      is_duplicate (sample_monitor "png") (tree st') info = true.
Proof.
  intros st.
  apply (proj1 (siblings_processed_unless_save_raises
                  (sample_monitor "png") silent_world tt [0; 1]%nat st)).
  - intros p. reflexivity.
  - intros p. discriminate.
Defined.

(** C9, counterexample.  With a classifier attached the loop sets
    [style_category] on the record, which the extractor left unset. *)
Lemma classifier_sets_style_category :
  let lines := [cp "fafa"; cp "ID: 41"; cp "mtk 2532"] in
  let r := run_once styled_monitor kind_world sample_clock tt [] lines ∅ in
  style_category <$> (extract_all_products sample_clock [] lines !! 0%nat)
    = Some None /\
  style_category <$> (objects (snd r) !! 0%nat) = Some (Some (cp "dress")).
Proof. vm_compute. done. Qed.

Lemma only_filepath_is_assigned_witness :
  let lines := [cp "fafa"; cp "ID: 41"; cp "mtk 2532"] in
  let st := snd (run_once (sample_monitor "png") kind_world sample_clock tt []
                          lines ∅) in
  let saved := set_filepath (new_product sample_clock [] (cp "41") (cp "2532"))
                            (cp "screenshots/ID_41/11-17/2532.png") in
  objects st !! 0%nat = Some saved /\
  exists info,
    extract_all_products sample_clock [] lines !! 0%nat = Some info /\
    same_core info saved.
Proof.
  intros lines st saved.
  assert (Hlook : objects st !! 0%nat = Some saved) by (vm_compute; reflexivity).
  split; [exact Hlook|].
  destruct (proj2 (only_filepath_is_assigned (sample_monitor "png") kind_world
                     sample_clock tt [] lines ∅) 0%nat saved Hlook)
    as (info & Hinfo & Hcore & _).
  exists info. split; [exact Hinfo | exact Hcore].
Defined.

Lemma save_ignores_encoder_status_witness :
  save_screenshot (sample_monitor "png") silent_world tt sample_record ∅
    = (Returns (path_str (save_path (sample_monitor "png") sample_record)),
       ∅ ∪ list_to_set (with_parents (date_folder (sample_monitor "png") sample_record))) /\
  path_str (save_path (sample_monitor "png") sample_record) <> [].
Proof.
  pose proof (save_ignores_encoder_status (sample_monitor "png") silent_world tt
                sample_record ∅ eq_refl eq_refl) as (Hsave & Hpath & _).
  split; [exact Hsave | exact Hpath].
Defined.

(** * Further properties *)

(** ** The IDs of a frame *)

Section IdFacts.
Context `{Unicode}.

Lemma span_pos_take (p : N -> bool) (s : str) (n : nat) :
  span p s = S n -> take (S n) s <> [] /\ forallb p (take (S n) s) = true.
Proof.
  intros Hspan. split.
  - destruct s; [discriminate Hspan | discriminate].
  - apply span_take. lia.
Qed.

Lemma digits1_shape (s g : str) (n : nat) :
  digits1 s = Some (g, n) -> g <> [] /\ forallb isdigit g = true.
Proof.
  unfold digits1. destruct (span isdigit s) as [|k] eqn:Hspan; [done|].
  intros [= <- <-]. by apply span_pos_take.
Qed.

Lemma spaces_then_digits_shape (least k : nat) (s g : str) (n : nat) :
  spaces_then_digits least k s = Some (g, n) ->
  g <> [] /\ forallb isdigit g = true.
Proof.
  induction k as [|k IH]; cbn [spaces_then_digits].
  - destruct (digits1 (drop 0 s)) as [[g' n']|] eqn:Hd; [|done].
    intros [= <- <-]. by eapply digits1_shape.
  - destruct (digits1 (drop (S k) s)) as [[g' n']|] eqn:Hd.
    + intros [= <- <-]. by eapply digits1_shape.
    + destruct (least <=? k)%nat; [exact IH | done].
Qed.

Lemma shift_shape (k : nat) (r : option (str * nat)) (g : str) (n : nat) :
  shift k r = Some (g, n) -> exists m, r = Some (g, m).
Proof. destruct r as [[g' m]|]; [|done]. intros [= <- <-]. eauto. Qed.

Lemma id_colon_shape (prev : option N) (s g : str) (n : nat) :
  id_colon prev s = Some (g, n) -> g <> [] /\ forallb isdigit g = true.
Proof.
  unfold id_colon. destruct (id_letters s) as [[|c rest]|]; [done| |done].
  destruct (one_of _ c); [|done].
  intros Hm. apply shift_shape in Hm as [m Hm].
  by eapply spaces_then_digits_shape.
Qed.

Lemma id_space_shape (prev : option N) (s g : str) (n : nat) :
  id_space prev s = Some (g, n) -> g <> [] /\ forallb isdigit g = true.
Proof.
  unfold id_space. destruct (id_letters s) as [rest|]; [|done].
  destruct (span isspace rest); [done|].
  intros Hm. apply shift_shape in Hm as [m Hm].
  by eapply spaces_then_digits_shape.
Qed.

Lemma all_ids_shape (full_text g : str) :
  g ∈ all_ids full_text -> g <> [] /\ forallb isdigit g = true.
Proof.
  unfold all_ids, id_patterns. cbn [fold_left app].
  intros Hin. apply elem_of_app in Hin as [Hin|Hin];
    apply findall_from_elem in Hin as (prev & s' & n & Hm).
  - by eapply id_colon_shape.
  - by eapply id_space_shape.
Qed.

Lemma dedup_fold_inv (l : list str) :
  forall seen unique,
    seen_is seen unique ->
    seen_is (fold_left dedup_step l (seen, unique)).1
            (fold_left dedup_step l (seen, unique)).2 /\
    forall x, x ∈ (fold_left dedup_step l (seen, unique)).2 <->
              x ∈ unique \/ x ∈ l.
Proof.
  induction l as [|a l IH]; intros seen unique Hinv; cbn [fold_left].
  - split; [done|]. intros x. split; [by left | intros [?|Hx]; [done|]].
    by apply elem_of_nil in Hx.
  - destruct Hinv as [Hseen Hnodup]. unfold dedup_step at 2 4 6.
    destruct (decide (a ∈ seen)) as [Ha|Ha].
    + destruct (IH seen unique (conj Hseen Hnodup)) as [Hfinal Hiff].
      split; [done|]. intros x. rewrite Hiff, elem_of_cons.
      split; [intros [?|?]; eauto|].
      intros [?|[->|?]]; eauto. left. by apply Hseen.
    + assert (Hinv' : seen_is ({[a]} ∪ seen) (unique ++ [a])).
      { split.
        - intros x. rewrite elem_of_union, elem_of_singleton, elem_of_app,
            list_elem_of_singleton, Hseen. tauto.
        - apply NoDup_app. split; [done|]. split; [|apply NoDup_singleton].
          intros x Hx Hxa. apply list_elem_of_singleton in Hxa as ->.
          apply Ha, Hseen, Hx. }
      destruct (IH _ _ Hinv') as [Hfinal Hiff].
      split; [done|]. intros x.
      rewrite Hiff, elem_of_app, list_elem_of_singleton, elem_of_cons. tauto.
Qed.

Lemma unique_ids_iff (lines : list str) :
  NoDup (unique_ids lines) /\
  forall x, x ∈ unique_ids lines <-> x ∈ all_ids (join (cp " ") lines).
Proof.
  assert (Hinit : seen_is (∅ : gset (list N)) []).
  { split; [|apply NoDup_nil_2].
    intros x. split; [set_solver | intros Hx; by apply elem_of_nil in Hx]. }
  destruct (dedup_fold_inv (all_ids (join (cp " ") lines)) ∅ [] Hinit)
    as [[_ Hnodup] Hiff].
  split; [exact Hnodup|].
  intros x. unfold unique_ids. rewrite Hiff. split; [|by right].
  intros [Hx|Hx]; [by apply elem_of_nil in Hx | done].
Qed.

Lemma unique_ids_digits (lines : list str) (x : str) :
  x ∈ unique_ids lines -> x <> [] /\ forallb isdigit x = true.
Proof.
  intros Hx. apply (proj2 (unique_ids_iff lines)) in Hx.
  by apply all_ids_shape in Hx.
Qed.

(** X1.  The unique IDs of a frame are exactly the matches of the two ID
    patterns in the space-joined text, each once, and every one of them is
    a non-empty string of digits. *)
Theorem unique_ids_are_the_matches (lines : list str) :
  NoDup (unique_ids lines) /\
  (forall x, x ∈ unique_ids lines <-> x ∈ all_ids (join (cp " ") lines)) /\
  (forall x, x ∈ unique_ids lines -> x <> [] /\ forallb isdigit x = true).
Proof.
  destruct (unique_ids_iff lines) as [Hnodup Hsame].
  split; [exact Hnodup|]. split; [exact Hsame|].
  intros x Hx. apply Hsame in Hx.
  unfold all_ids, id_patterns in Hx. cbn [fold_left app] in Hx.
  apply elem_of_app in Hx as [Hx|Hx];
    apply findall_from_elem in Hx as (prev & s' & n & Hm).
  - by eapply id_colon_shape.
  - by eapply id_space_shape.
Qed.

End IdFacts.

(** ** The records of a frame *)

Section RecordFacts.
Context `{Unicode}.

(** X2.  Every record of one call carries the text and the two clock
    readings of that call, an empty [filepath], and an ID that is either
    ["unknown"] or a non-empty string of digits. *)
Theorem records_share_the_frame (clock : Clock) (text : str) (lines : list str)
    (info : ProductInfo) :
  info ∈ extract_all_products clock text lines ->
  label_date info = now_date clock /\
  raw_text info = text /\
  timestamp info = now_timestamp clock /\
  filepath info = [] /\
  (product_id info = unknown \/
   (product_id info <> [] /\ forallb isdigit (product_id info) = true)).
Proof.
  intros Hin.
  apply extract_elem in Hin as [(i & pid & Hi & ->)|(_ & s & _ & ->)];
    cbn [label_date raw_text timestamp filepath product_id new_product];
    repeat split; try done; [right | by left].
  apply (unique_ids_digits lines).
  apply list_elem_of_lookup. eauto.
Qed.

(** X3.  No two records of one call have the same ID and serial number:
    with IDs the IDs differ, without IDs the serial numbers differ. *)
Theorem records_have_distinct_keys (clock : Clock) (text : str) (lines : list str) :
  NoDup (List.map (fun info => (product_id info, serial_number info))
                  (extract_all_products clock text lines)).
Proof.
  apply NoDup_alt. intros i j key Hi Hj.
  change (List.map ?f ?l) with (f <$> l) in Hi, Hj.
  rewrite list_lookup_fmap in Hi, Hj.
  destruct (extract_all_products clock text lines !! i) as [a|] eqn:Ha; [|done].
  destruct (extract_all_products clock text lines !! j) as [b|] eqn:Hb; [|done].
  cbn in Hi, Hj. assert (Hkey : (product_id a, serial_number a)
                              = (product_id b, serial_number b)) by congruence.
  injection Hkey as Hid Hserial. clear Hi Hj.
  unfold extract_all_products in Ha, Hb.
  destruct (unique_ids lines) as [|pid ids] eqn:Hids.
  - destruct (unique_serials lines) as [|s serials] eqn:Hserials; [done|].
    cbn [imap app] in Ha, Hb.
    change (List.map ?f ?l) with (f <$> l) in Ha, Hb.
    rewrite list_lookup_fmap in Ha, Hb.
    destruct ((s :: serials) !! i) as [si|] eqn:Hsi; [|done].
    destruct ((s :: serials) !! j) as [sj|] eqn:Hsj; [|done].
    cbn in Ha, Hb. injection Ha as <-. injection Hb as <-.
    cbn [serial_number new_product] in Hserial. subst sj.
    pose proof (unique_serials_nodup lines) as Hnodup. rewrite Hserials in Hnodup.
    by eapply NoDup_lookup.
  - assert (Hlook : forall k r,
              (match unique_serials lines with
               | [] | _ => imap (fun i0 pid0 =>
                   new_product clock text pid0
                     (serial_at (unique_serials lines) i0)) (pid :: ids)
               end) !! k = Some r ->
              exists pk, (pid :: ids) !! k = Some pk /\ product_id r = pk).
    { intros k r Hk. destruct (unique_serials lines);
        rewrite list_lookup_imap in Hk;
        destruct ((pid :: ids) !! k) as [pk|]; try done;
        cbn in Hk; injection Hk as <-; eauto. }
    destruct (Hlook i a) as (pi & Hpi & Hai).
    { by destruct (unique_serials lines). }
    destruct (Hlook j b) as (pj & Hpj & Hbj).
    { by destruct (unique_serials lines). }
    pose proof (proj1 (unique_ids_iff lines)) as Hnodup.
    rewrite Hids in Hnodup.
    assert (pi = pj) as -> by congruence. by eapply NoDup_lookup.
Qed.

Lemma imap_unknown (clock : Clock) (text : str) (f : nat -> nat)
    (ids : list str) :
  imap (fun i pid => new_product clock text pid (serial_at [] (f i))) ids
  = List.map (fun pid => new_product clock text pid unknown) ids.
Proof.
  revert f. induction ids as [|pid ids IH]; intros f; [done|].
  cbn [imap List.map]. f_equal. apply (IH (fun i => f (S i))).
Qed.

(** X4.  When no line contains a marker keyword, no serial candidate is
    found: there is one record per unique ID, in order, each with the
    serial number ["unknown"]. *)
Theorem no_marker_no_serial (clock : Clock) (text : str) (lines : list str) :
  (forall line kw, line ∈ lines -> kw ∈ serial_keywords ->
     str_in kw (lower line) = false) ->
  all_serials lines = [] /\
  extract_all_products clock text lines =
    List.map (fun pid => new_product clock text pid unknown) (unique_ids lines).
Proof.
  intros Hno.
  assert (Hnone : forall i line, lines !! i = Some line ->
            line_candidate lines i line = None).
  { intros i line Hi.
    assert (Hline : line ∈ lines) by (apply list_elem_of_lookup; eauto).
    assert (Hmtk : str_in (cp "mtk") (lower line) = false)
      by (apply Hno; [done | unfold serial_keywords; left]).
    assert (Hyeye : str_in (cp "yeye") (lower line) = false)
      by (apply Hno; [done | unfold serial_keywords; right; left]).
    unfold line_candidate, serial_keywords. cbn [List.map first_some].
    by rewrite !try_keyword_absent. }
  assert (Hall : all_serials lines = []).
  { rewrite all_serials_spec.
    rewrite (imap_ext _ (fun _ _ => []) lines)
      by (intros i line Hi; by rewrite (Hnone i line Hi)).
    clear. generalize 0%nat. induction lines as [|l ls IH]; [done|].
    intros n. cbn [imap concat app]. apply (IH (S n)). }
  split; [exact Hall|].
  unfold extract_all_products, unique_serials. rewrite Hall. cbn [fold_left snd].
  rewrite (imap_unknown clock text (fun i => i)). by destruct (unique_ids lines).
Qed.

Lemma serial_fold_length (l : list str) :
  forall seen unique,
    (length (fold_left serial_step l (seen, unique)).2
     <= length unique + length l)%nat.
Proof.
  induction l as [|s l IH]; intros seen unique; cbn [fold_left]; [simpl; lia|].
  assert (Hstep : exists seen', serial_step (seen, unique) s = (seen', unique) \/
                                serial_step (seen, unique) s = (seen', unique ++ [s])).
  { unfold serial_step. destruct (decide (s ∈ seen)); [eauto|].
    destruct (py_int s); [|eauto].
    destruct ((1 <=? z) && (z <=? 9999)); eauto. }
  destruct Hstep as (seen' & [-> | ->]).
  - specialize (IH seen' unique). simpl. lia.
  - specialize (IH seen' (unique ++ [s])). rewrite length_app in IH. simpl in *. lia.
Qed.

(** X5.  A frame of [n] lines gives at most [n] serial candidates, hence at
    most [n] unique serial numbers. *)
Theorem at_most_one_candidate_per_line (lines : list str) :
  (length (all_serials lines) <= length lines)%nat /\
  (length (unique_serials lines) <= length (all_serials lines))%nat.
Proof.
  split.
  - rewrite all_serials_spec. generalize 0%nat.
    assert (Hgen : forall (f : nat -> list N -> option (list N)) (ls : list (list N)),
              (length (concat (imap (fun i l => option_list (f i l)) ls))
               <= length ls)%nat).
    { intros f ls. revert f. induction ls as [|l ls IH]; intros f; [done|].
      cbn [imap concat]. rewrite length_app.
      specialize (IH (fun i => f (S i))). cbn [length].
      destruct (f 0%nat l); unfold compose; simpl in *; lia. }
    intros _. apply (Hgen (line_candidate lines)).
  - unfold unique_serials.
    pose proof (serial_fold_length (all_serials lines) ∅ []). simpl in *. lia.
Qed.

End RecordFacts.

(** ** Runs of digits *)

Section DigitRuns.
Context `{Unicode}.
Hypothesis digits_are_word : forall c, isdigit c = true -> isword c = true.

Lemma findall_skip_all (m : matcher) (s : str) :
  forall prev skip, (length s <= skip)%nat -> findall_from m prev skip s = [].
Proof.
  induction s as [|c s IH]; intros prev skip Hlen; [done|].
  destruct skip as [|k]; simpl in Hlen; [lia|].
  cbn [findall_from]. apply IH. lia.
Qed.

Lemma span_all (s : str) : forallb isdigit s = true -> span isdigit s = length s.
Proof.
  induction s as [|c s IH]; simpl; [done|].
  intros Hall. apply andb_true_iff in Hall as [-> Hall]. by rewrite IH.
Qed.

Lemma digit_at (s : str) (k : nat) (c : N) :
  forallb isdigit s = true -> s !! k = Some c -> isword c = true.
Proof.
  intros Hall Hk. apply digits_are_word.
  rewrite forallb_forall in Hall. apply Hall, list_elem_of_In.
  apply list_elem_of_lookup. eauto.
Qed.

Lemma inside_run_no_token (s : str) :
  forallb isdigit s = true ->
  forall prev skip, word_at prev = true ->
    findall_from number_token prev skip s = [].
Proof.
  induction s as [|c s IH]; intros Hall prev skip Hprev; [done|].
  simpl in Hall. apply andb_true_iff in Hall as [Hc Hall].
  assert (Hword : word_at (Some c) = true) by (by apply digits_are_word).
  cbn [findall_from]. destruct skip as [|k]; [|by apply IH].
  unfold number_token, boundary. cbn [head]. rewrite Hprev, Hword. cbn [xorb].
  by apply IH.
Qed.

Lemma long_run_no_match (s : str) (k : nat) :
  forallb isdigit s = true -> (k < length s)%nat ->
  digits_then_boundary k s = None.
Proof.
  intros Hall. induction k as [|k IH]; intros Hk; [done|].
  cbn [digits_then_boundary].
  assert (Hlast : word_at (last (take (S k) s)) = true).
  { rewrite last_lookup, length_take, lookup_take_lt by lia.
    destruct (lookup_lt_is_Some_2 s (Nat.pred (S k `min` length s))) as [c Hc];
      [lia|].
    rewrite Hc. by eapply digit_at. }
  assert (Hnext : word_at (head (drop (S k) s)) = true).
  { rewrite head_lookup, lookup_drop.
    destruct (lookup_lt_is_Some_2 s (S k + 0)) as [c Hc]; [lia|].
    rewrite Hc. by eapply digit_at. }
  unfold boundary. rewrite Hlast, Hnext. cbn [xorb]. apply IH. lia.
Qed.

(** X6.  In a text that is one run of digits, the number pattern finds the
    whole run when it has one to four digits and nothing when it has more:
    a longer number is neither taken nor cut into pieces. *)
Theorem digit_run_tokens (s : str) :
  forallb isdigit s = true ->
  ((1 <= length s <= 4)%nat -> numbers s = [s]) /\
  ((4 < length s)%nat -> numbers s = []).
Proof.
  intros Hall. unfold numbers, findall.
  destruct s as [|c rest]; [split; simpl; lia|].
  assert (Hc : word_at (Some c) = true).
  { simpl in Hall. apply andb_true_iff in Hall as [Hc _].
    by apply digits_are_word. }
  assert (Hrest : forallb isdigit rest = true).
  { simpl in Hall. by apply andb_true_iff in Hall as [_ ?]. }
  split; intros Hlen; cbn [findall_from]; unfold number_token at 1, boundary at 1;
    cbn [head word_at] in *; rewrite Hc; cbn [xorb]; rewrite (span_all _ Hall).
  - rewrite Nat.min_r by lia.
    assert (Hmatch : digits_then_boundary (length (c :: rest)) (c :: rest)
                     = Some (c :: rest, length (c :: rest))).
    { cbn [length digits_then_boundary].
      change (S (length rest)) with (length (c :: rest)).
      rewrite firstn_all, drop_all.
      assert (Hlast : word_at (last (c :: rest)) = true).
      { rewrite last_lookup.
        destruct (lookup_lt_is_Some_2 (c :: rest) (Nat.pred (length (c :: rest))))
          as [d Hd]; [simpl; lia|].
        rewrite Hd. exact (digit_at _ _ _ Hall Hd). }
      unfold boundary. by rewrite Hlast. }
    rewrite Hmatch. f_equal. apply findall_skip_all. simpl. lia.
  - rewrite Nat.min_l by lia.
    rewrite (long_run_no_match (c :: rest) 4 Hall Hlen).
    by apply inside_run_no_token.
Qed.

End DigitRuns.

Lemma ascii_digits_are_word (c : N) : ascii_isdigit c = true -> ascii_isword c = true.
Proof. unfold ascii_isword, ascii_isdigit. by intros ->. Qed.

Lemma digit_run_tokens_witness :
  numbers (cp "2532") = [cp "2532"] /\ numbers (cp "25320") = [].
Proof.
  split.
  - apply (@digit_run_tokens ascii_tables ascii_digits_are_word (cp "2532") eq_refl).
    simpl. lia.
  - apply (@digit_run_tokens ascii_tables ascii_digits_are_word (cp "25320") eq_refl).
    simpl. lia.
Defined.

(** ** More on the trigger detector *)

Section TriggerMore.
Context `{Unicode}.

Lemma trigger_loop_lower (keyword : str) (lines lines' : list str) :
  List.map lower lines = List.map lower lines' ->
  trigger_loop keyword lines = trigger_loop keyword lines'.
Proof.
  revert lines'. induction lines as [|l ls IH]; intros [|l' ls'] Heq;
    try discriminate Heq; [done|].
  injection Heq as Hl Hls. cbn [trigger_loop]. rewrite Hl.
  destruct (str_in keyword (lower l')); [done | by apply IH].
Qed.

(** X7.  The trigger detector is case-insensitive in the sense of
    [str.lower]: two keywords with the same lower-case form and two frames
    whose lines have the same lower-case forms get the same answer. *)
Theorem check_trigger_ignores_case (kw kw' : str) (lines lines' : list str) :
  lower kw = lower kw' ->
  List.map lower lines = List.map lower lines' ->
  check_trigger kw lines = check_trigger kw' lines'.
Proof.
  intros Hkw Hlines. unfold check_trigger. rewrite Hkw.
  by apply trigger_loop_lower.
Qed.

Lemma str_in_nil (s : str) : str_in [] s = true.
Proof. by destruct s. Qed.

(** X8.  A keyword whose lower-case form is empty triggers on every frame
    that has at least one line, whatever the lines say. *)
Theorem empty_keyword_always_triggers (kw : str) (lines : list str) :
  lower kw = [] ->
  check_trigger kw lines = match lines with [] => false | _ => true end.
Proof.
  intros Hkw. unfold check_trigger. rewrite Hkw.
  destruct lines as [|l ls]; [done|]. cbn [trigger_loop]. by rewrite str_in_nil.
Qed.

End TriggerMore.

Lemma check_trigger_ignores_case_witness :
  check_trigger (cp "FaFa") [cp "x FAFA 1"] = check_trigger (cp "fafa") [cp "X fafa 1"].
Proof.
  apply (check_trigger_ignores_case (cp "FaFa") (cp "fafa")
                                    [cp "x FAFA 1"] [cp "X fafa 1"]);
    reflexivity.
Defined.

Lemma empty_keyword_always_triggers_witness :
  check_trigger [] [cp "anything"] = true.
Proof. exact (empty_keyword_always_triggers [] [cp "anything"] eq_refl). Defined.

(** ** The recognizer adapter *)

Section OcrFacts.
Context `{Unicode}.
Variable Score : Type.
Variable above_threshold : Score -> bool.

Lemma lstrip_head (s : str) (c : N) :
  head (lstrip s) = Some c -> isspace c = false.
Proof.
  induction s as [|a s IH]; cbn [lstrip]; [done|].
  destruct (isspace a) eqn:Ha; [exact IH|]. by intros [= <-].
Qed.

Lemma lstrip_drop (s : str) : exists k, lstrip s = drop k s.
Proof.
  induction s as [|a s [k IH]]; [by exists 0%nat|]. cbn [lstrip].
  destruct (isspace a); [by exists (S k) | by exists 0%nat].
Qed.

Lemma last_rev {A} (l : list A) : last (rev l) = head l.
Proof. destruct l as [|a l]; [done|]. simpl. apply last_snoc. Qed.

Lemma head_take {A} (l : list A) (n : nat) (a : A) :
  head (take n l) = Some a -> head l = Some a.
Proof. destruct n, l; simpl; done. Qed.

Lemma strip_prefix (s : str) : exists n, strip s = take n (lstrip s).
Proof.
  unfold strip. destruct (lstrip_drop (rev (lstrip s))) as [k ->].
  exists (length (lstrip s) - k)%nat.
  change (drop k (rev (lstrip s))) with (skipn k (rev (lstrip s))).
  by rewrite skipn_rev, rev_involutive.
Qed.

Lemma strip_ends (s : str) (c : N) :
  head (strip s) = Some c \/ last (strip s) = Some c -> isspace c = false.
Proof.
  intros [Hhead|Hlast].
  - destruct (strip_prefix s) as [n Hn]. rewrite Hn in Hhead.
    apply head_take in Hhead. by apply lstrip_head in Hhead.
  - unfold strip in Hlast. rewrite last_rev in Hlast.
    by apply lstrip_head in Hlast.
Qed.

Lemma keep_confident_spec (lines texts : list str) (scores : list Score) :
  keep_confident Score above_threshold lines texts scores =
  lines ++ List.map (fun p => strip (fst p))
             (List.filter (fun p => above_threshold (snd p)) (zip texts scores)).
Proof.
  unfold keep_confident. generalize (zip texts scores) as pairs.
  intros pairs. revert lines.
  induction pairs as [|[text score] pairs IH]; intros lines; cbn [fold_left].
  - by rewrite app_nil_r.
  - rewrite IH. cbn [List.filter snd fst].
    destruct (above_threshold score); [|done].
    cbn [List.map fst]. by rewrite <- app_assoc.
Qed.

Lemma item_lines_spec (lines : list str) (item : OcrItem Score) :
  item_lines Score above_threshold lines item
  = lines ++ confident_lines Score above_threshold item.
Proof.
  unfold item_lines, confident_lines.
  destruct (rec_texts Score item), (rec_scores Score item);
    rewrite ?keep_confident_spec, ?app_nil_r; done.
Qed.

Lemma fold_item_lines (items : list (OcrItem Score)) (lines : list str) :
  fold_left (item_lines Score above_threshold) items lines =
  lines ++ concat (List.map (confident_lines Score above_threshold) items).
Proof.
  revert lines. induction items as [|item items IH]; intros lines; cbn [fold_left].
  - by rewrite app_nil_r.
  - rewrite IH, item_lines_spec. cbn [List.map concat]. by rewrite <- app_assoc.
Qed.

(** X9.  The recognizer adapter returns, in order, the stripped texts whose
    score passes the threshold, pairing texts and scores position by
    position and ignoring items that lack either list; no returned line
    begins or ends with white space, and the full text is the lines joined
    by newlines. *)
Theorem do_ocr_lines (result : option (list (OcrItem Score))) :
  let items := match result with Some items => items | None => [] end in
  snd (do_ocr Score above_threshold result)
    = concat (List.map (confident_lines Score above_threshold) items) /\
  fst (do_ocr Score above_threshold result)
    = join [10%N] (snd (do_ocr Score above_threshold result)) /\
  forall line c,
    line ∈ snd (do_ocr Score above_threshold result) ->
    head line = Some c \/ last line = Some c -> isspace c = false.
Proof.
  intros items.
  assert (Hlines : snd (do_ocr Score above_threshold result)
                   = concat (List.map (confident_lines Score above_threshold) items)).
  { unfold do_ocr. cbn [snd]. subst items.
    destruct result as [[|item rest]|]; [done | | done].
    by rewrite fold_item_lines. }
  split; [exact Hlines|]. split; [done|].
  intros line c Hin Hends. rewrite Hlines in Hin.
  apply elem_of_concat in Hin as (ls & Hls & Hline).
  apply list_elem_of_In, in_map_iff in Hls as (item & <- & _).
  unfold confident_lines in Hline.
  destruct (rec_texts Score item), (rec_scores Score item);
    try (by apply elem_of_nil in Hline).
  apply list_elem_of_In, in_map_iff in Hline as (p & <- & _).
  by eapply strip_ends.
Qed.

End OcrFacts.

Lemma do_ocr_lines_witness :
  snd (do_ocr nat (fun score => (3 <? score)%nat)
         (Some [{| rec_texts := Some [cp " fafa "; cp "noise"; cp "ID: 41"];
                   rec_scores := Some [9; 2; 7]%nat |}]))
  = [cp "fafa"; cp "ID: 41"] /\
  isspace 102%N = false.
Proof.
  split; [reflexivity|].
  apply (proj2 (proj2 (do_ocr_lines nat (fun score => (3 <? score)%nat)
           (Some [{| rec_texts := Some [cp " fafa "; cp "noise"; cp "ID: 41"];
                     rec_scores := Some [9; 2; 7]%nat |}])))
         (cp "fafa") 102%N).
  - vm_compute. left.
  - left. reflexivity.
Defined.

(** ** More on file names and the capture store *)

(** X10.  Sanitizing a file name keeps its length and is idempotent. *)
Theorem sanitize_idempotent (filename : str) :
  length (sanitize filename) = length filename /\
  sanitize (sanitize filename) = sanitize filename.
Proof.
  split.
  - unfold sanitize. apply length_map.
  - apply sanitize_id, Forall_forall. intros c Hc. by eapply sanitize_legal.
Qed.

Section StoreMore.
Context `{Unicode}.
Context {Image : Type}.
Variable self : Monitor Image.

Lemma save_path_supported (info : ProductInfo) (ext : str) :
  img_format self = ext -> Forall legal ext -> Forall legal (serial_number info) ->
  save_path self info =
  path_join (date_folder self info) (serial_number info ++ cp "." ++ ext).
Proof.
  intros Hext Hext_legal Hserial. unfold save_path. rewrite Hext.
  rewrite sanitize_id; [done|].
  apply Forall_app. split; [done|]. apply Forall_app. split; [|done].
  by repeat constructor.
Qed.

(** X11.  With the format png or jpg and a serial number free of the
    replaced characters, a record that is not a duplicate is saved to a
    path that does not exist yet: a capture is never overwritten. *)
Theorem capture_never_overwritten (info : ProductInfo) (fs : gset Path) :
  img_format self = cp "png" \/ img_format self = cp "jpg" ->
  Forall legal (serial_number info) ->
  is_duplicate self fs info = false ->
  path_exists fs (save_path self info) = false.
Proof.
  intros Hformat Hlegal Hdup. unfold is_duplicate in Hdup.
  apply orb_false_iff in Hdup as [Hjpg Hpng].
  destruct Hformat as [Hf|Hf];
    rewrite (save_path_supported info _ Hf) by (done || by repeat constructor);
    done.
Qed.

End StoreMore.

Lemma capture_never_overwritten_witness :
  path_exists ∅ (save_path (sample_monitor "png") sample_record) = false.
Proof.
  apply (capture_never_overwritten (sample_monitor "png") sample_record ∅).
  - left. reflexivity.
  - repeat constructor.
  - reflexivity.
Defined.

(** ** More on one detection cycle *)

Section CycleMore.
Context `{Unicode}.
Context {Image : Type}.
Variable self : Monitor Image.
Variable world : World.

(** The two ways [run_once] goes: it returns at once, or it runs the loop
    over the extracted records. *)
Lemma run_once_cases (clock : Clock) (image : Image) (text : str)
    (lines : list str) (fs : gset Path) :
  let products := extract_all_products clock text lines in
  let st0 := {| tree := fs; objects := products; saved_products := [] |} in
  (run_once self world clock image text lines fs
     = (Returns [], {| tree := fs; objects := []; saved_products := [] |})) \/
  (products <> [] /\
   run_once self world clock image text lines fs =
   match visit_all self world image (seq 0 (length products)) st0 with
   | (Returns _, st) => (Returns (deref st), st)
   | (Raises e, st) => (Raises e, st)
   end).
Proof.
  intros products st0. unfold run_once.
  destruct lines as [|line0 rest]; [by left|].
  destruct (check_trigger _ _); cbn [negb]; [|by left].
  fold products. fold st0.
  destruct products as [|first others] eqn:Hproducts; [by left|].
  right. split; [done|]. subst st0. by rewrite <- Hproducts.
Qed.

(** A visit that returns either leaves the state as it was or lists one
    more record; the objects keep their number; a listed index is one of
    the visited objects. *)
Lemma visit_progress (image : Image) (i : nat) (st : Cycle) :
  length (objects (snd (visit self world image i st))) = length (objects st) /\
  (forall k, k ∈ saved_products (snd (visit self world image i st)) ->
     k ∈ saved_products st \/ (k = i /\ (i < length (objects st))%nat)) /\
  (forall st', visit self world image i st = (Returns tt, st') ->
     st' = st \/ length (saved_products st') = S (length (saved_products st))).
Proof.
  destruct (visit_visited self world image i st)
    as [Hi|info Hi Hdup|info fs' Hi Hdup Hsub|info e fs' Hi Hdup Hsub Hwhy];
    cbn [snd objects saved_products].
  - split; [done|]. split; [by left|]. intros st' [= <-]. by left.
  - split; [done|]. split; [by left|]. intros st' [= <-]. by left.
  - split; [by rewrite length_insert|]. split.
    + intros k Hk. apply elem_of_app in Hk as [Hk|Hk]; [by left|].
      apply list_elem_of_singleton in Hk as ->. right. split; [done|].
      by eapply lookup_lt_Some.
    + intros st' [= <-]. right. cbn [saved_products]. rewrite length_app. simpl. lia.
  - split; [by rewrite length_insert|]. split; [by left|]. intros st' Hst'. done.
Qed.

Lemma visit_all_progress (image : Image) (indices : list nat) :
  forall st,
    length (objects (snd (visit_all self world image indices st)))
      = length (objects st) /\
    (forall k, k ∈ saved_products (snd (visit_all self world image indices st)) ->
       k ∈ saved_products st \/ (k < length (objects st))%nat) /\
    (forall st', visit_all self world image indices st = (Returns tt, st') ->
       st' = st \/
       (length (saved_products st) < length (saved_products st'))%nat).
Proof.
  induction indices as [|i rest IH]; intros st; cbn [visit_all].
  - cbn [snd]. split; [done|]. split; [by left|]. intros st' [= <-]. by left.
  - destruct (visit_progress image i st) as (Hlen & Hsaved & Hstep).
    destruct (visit self world image i st) as [[[]|e] st1]; cbn [snd] in *.
    + destruct (IH st1) as (Hlen' & Hsaved' & Hstep').
      split; [congruence|]. split.
      * intros k Hk. destruct (Hsaved' k Hk) as [Hk'|Hk']; [|right; lia].
        destruct (Hsaved k Hk') as [?|[-> ?]]; [by left | right; lia].
      * intros st' Hst'. destruct (Hstep st1 eq_refl) as [->|Hone].
        -- by apply Hstep'.
        -- right. destruct (Hstep' st' Hst') as [->|Hmore]; lia.
    + split; [done|]. split.
      * intros k Hk. destruct (Hsaved k Hk) as [?|[-> ?]]; [by left | by right].
      * intros st' Hst'. done.
Qed.

Lemma deref_length (st : Cycle) :
  (forall k, k ∈ saved_products st -> (k < length (objects st))%nat) ->
  length (deref st) = length (saved_products st).
Proof.
  unfold deref. induction (saved_products st) as [|k ks IH]; intros Hvalid; [done|].
  destruct (lookup_lt_is_Some_2 (objects st) k) as [o Ho]; [apply Hvalid; left|].
  cbn [omap list_omap]. rewrite Ho. cbn [length]. f_equal. apply IH.
  intros j Hj. apply Hvalid. by right.
Qed.

(** The state after [run_once], in the terms of the loop invariant. *)
Lemma run_once_inv (clock : Clock) (image : Image) (text : str)
    (lines : list str) (fs : gset Path) :
  let products := extract_all_products clock text lines in
  let r := run_once self world clock image text lines fs in
  fs ⊆ tree (snd r) /\
  (forall k, k ∈ saved_products (snd r) -> (k < length (objects (snd r)))%nat) /\
  (objects (snd r) = [] /\ saved_products (snd r) = [] \/
   cycle_inv self products [] (snd r)) /\
  (forall results, fst r = Returns results ->
     results = deref (snd r) /\
     (results = [] -> tree (snd r) = fs)).
Proof.
  intros products r. subst r.
  destruct (run_once_cases clock image text lines fs) as [->|[Hne ->]].
  - cbn [fst snd tree objects saved_products]. split; [done|].
    split; [intros k Hk; by apply elem_of_nil in Hk|].
    split; [by left|]. intros results [= <-]. done.
  - fold products.
    set (st0 := {| tree := fs; objects := products; saved_products := [] |}).
    pose proof (visit_all_evolves self world image (seq 0 (length products)) st0)
      as (Htree & _ & _).
    destruct (visit_all_progress image (seq 0 (length products)) st0)
      as (Hlen & Hsaved & Hstep).
    assert (Hinit : cycle_inv self products (seq 0 (length products)) st0).
    { split; [done|]. split; [|split; [apply NoDup_nil_2|]].
      - intros i info Hi. exists info. split; [done|].
        split; [apply same_core_refl|]. split; [done|].
        split; [intros Hin; by apply elem_of_nil in Hin | done].
      - intros i Hin. by apply elem_of_nil in Hin. }
    pose proof (visit_all_inv self world products image _
                  (NoDup_seq 0 (length products)) st0 Hinit) as Hfinal.
    assert (Hvalid : forall k st1,
              st1 = snd (visit_all self world image (seq 0 (length products)) st0) ->
              k ∈ saved_products st1 -> (k < length (objects st1))%nat).
    { intros k st1 -> Hk. rewrite Hlen.
      destruct (Hsaved k Hk) as [Hk'|?]; [by apply elem_of_nil in Hk' | done]. }
    destruct (visit_all self world image (seq 0 (length products)) st0)
      as [[[]|e] st1] eqn:Hrun; cbn [fst snd] in *.
    + split; [done|]. split; [intros k; by apply (Hvalid k st1)|].
      split; [by right|]. intros results [= <-]. split; [done|].
      intros Hempty. destruct (Hstep st1 eq_refl) as [->|Hmore]; [done|].
      assert (Hd : length (deref st1) = length (saved_products st1))
        by (apply deref_length; intros k; by apply (Hvalid k st1)).
      rewrite Hempty in Hd. simpl in *. lia.
    + split; [done|]. split; [intros k; by apply (Hvalid k st1)|].
      split; [by right|]. intros results Hres. done.
Qed.

(** X12.  Every record [run_once] returns is one of the extracted records
    (same five creation fields) with [filepath] set to the non-empty string
    of its save path; and it returns no more records than were extracted. *)
Theorem returned_records_are_saved (clock : Clock) (image : Image) (text : str)
    (lines : list str) (fs : gset Path) (results : list ProductInfo) :
  fst (run_once self world clock image text lines fs) = Returns results ->
  (length results <= length (extract_all_products clock text lines))%nat /\
  forall r, r ∈ results ->
    filepath r = path_str (save_path self r) /\
    filepath r <> [] /\
    exists info, info ∈ extract_all_products clock text lines /\ same_core info r.
Proof.
  intros Hres.
  destruct (run_once_inv clock image text lines fs)
    as (_ & Hvalid & Hinv & Hresults).
  destruct (Hresults results Hres) as [-> _].
  set (st := snd (run_once self world clock image text lines fs)) in *.
  destruct Hinv as [[Hobj Hsaved]|(Hlen & Hobj & Hnodup & _)].
  - unfold deref. rewrite Hsaved. cbn. split; [lia|].
    intros r Hr. by apply elem_of_nil in Hr.
  - split.
    + rewrite (deref_length st Hvalid), <- Hlen.
      apply Nat.le_trans with (length (seq 0 (length (objects st))));
        [|rewrite length_seq; lia].
      apply submseteq_length, NoDup_submseteq; [done|].
      intros k Hk. apply elem_of_seq. specialize (Hvalid k Hk). lia.
    + intros r Hr. unfold deref in Hr.
      apply list_elem_of_omap in Hr as (i & Hi & Hlook).
      assert (Hlt : (i < length (extract_all_products clock text lines))%nat)
        by (rewrite <- Hlen; by eapply lookup_lt_Some).
      apply lookup_lt_is_Some_2 in Hlt as [info Hinfo].
      destruct (Hobj i info Hinfo) as (r' & Hr' & Hcore & _ & Hin & _).
      assert (r' = r) as -> by congruence.
      split; [by apply Hin|]. split.
      * rewrite (Hin Hi). apply save_path_str_nonempty.
      * exists info. split; [|done]. apply list_elem_of_lookup. eauto.
Qed.

End CycleMore.

Lemma returned_records_are_saved_witness :
  let lines := [cp "fafa"; cp "ID: 41"; cp "mtk 2532"] in
  exists results,
    fst (run_once (sample_monitor "png") kind_world sample_clock tt [] lines ∅)
      = Returns results /\
    (length results <= length (extract_all_products sample_clock [] lines))%nat.
Proof.
  intros lines.
  assert (Hres :
    fst (run_once (sample_monitor "png") kind_world sample_clock tt [] lines ∅)
    = Returns [set_filepath (new_product sample_clock [] (cp "41") (cp "2532"))
                            (cp "screenshots/ID_41/11-17/2532.png")])
    by (vm_compute; reflexivity).
  eexists. split; [exact Hres|].
  apply (proj1 (returned_records_are_saved (sample_monitor "png") kind_world
                  sample_clock tt [] lines ∅ _ Hres)).
Defined.

Lemma save_ocr_log_adds (how : logging) (day : str) (fs : gset Path) :
  fs ⊆ save_ocr_log how day fs /\
  forall p, p ∈ save_ocr_log how day fs ->
            p ∈ fs \/ p ∈ with_parents logs_dir \/ p = ocr_log day.
Proof.
  destruct how; cbn [save_ocr_log]; (split; [set_solver|]); intros p Hp.
  - by left.
  - apply elem_of_union in Hp as [Hp|Hp]; [by left|].
    right. left. by apply elem_of_list_to_set in Hp.
  - apply elem_of_union in Hp as [Hp|Hp].
    + apply elem_of_union in Hp as [Hp|Hp]; [by left|].
      right. left. by apply elem_of_list_to_set in Hp.
    + right. right. by apply elem_of_singleton in Hp.
Qed.

Section LoggedCycle.
Context `{Unicode}.
Context {Image : Type}.
Variable self : Monitor Image.
Variable world : World.
Variable Score : Type.
Variable above_threshold : Score -> bool.

(** X13.  From the captured image on, a cycle never removes anything from
    the directory tree, and a cycle that returns the empty list adds
    nothing but what the write of the recognition log adds: the folder
    [logs] and the log file of the day. *)
Theorem cycle_only_adds (how : logging) (day : str) (clock : Clock)
    (image : Image) (result : option (list (OcrItem Score))) (fs : gset Path) :
  let r := run_once_logged self world Score above_threshold how day clock image
                           result fs in
  fs ⊆ tree (snd r) /\
  (fst r = Returns [] ->
   tree (snd r) = save_ocr_log how day fs /\
   forall p, p ∈ tree (snd r) ->
             p ∈ fs \/ p ∈ with_parents logs_dir \/ p = ocr_log day).
Proof.
  intros r. subst r. unfold run_once_logged.
  set (ocr := do_ocr Score above_threshold result).
  destruct (save_ocr_log_adds how day fs) as [Hlog Hfrom].
  destruct (run_once_inv self world clock image (fst ocr) (snd ocr)
              (save_ocr_log how day fs)) as (Hsub & _ & _ & Hresults).
  split; [by etrans|].
  intros Hres. destruct (Hresults [] Hres) as [_ Htree].
  rewrite (Htree eq_refl). split; [done | exact Hfrom].
Qed.

End LoggedCycle.

Lemma cycle_only_adds_witness :
  tree (snd (run_once_logged (sample_monitor "png") kind_world nat
               (fun score => (3 <? score)%nat) LogWritten (cp "20251117")
               sample_clock tt
               (Some [{| rec_texts := Some [cp "no trigger here"];
                         rec_scores := Some [9%nat] |}]) ∅))
  = save_ocr_log LogWritten (cp "20251117") ∅.
Proof.
  apply (proj2 (cycle_only_adds (sample_monitor "png") kind_world nat
                  (fun score => (3 <? score)%nat) LogWritten (cp "20251117")
                  sample_clock tt
                  (Some [{| rec_texts := Some [cp "no trigger here"];
                            rec_scores := Some [9%nat] |}]) ∅)).
  reflexivity.
Defined.

(** [run_once] with the reason for the way it goes. *)
Lemma run_once_reason `{Unicode} {Image : Type} (self : Monitor Image)
    (world : World) (clock : Clock) (image : Image) (text : str)
    (lines : list str) (fs : gset Path) :
  let products := extract_all_products clock text lines in
  let st0 := {| tree := fs; objects := products; saved_products := [] |} in
  ((lines = [] \/ check_trigger (trigger_keyword self) lines = false \/
    products = []) /\
   run_once self world clock image text lines fs
     = (Returns [], {| tree := fs; objects := []; saved_products := [] |})) \/
  (lines <> [] /\ check_trigger (trigger_keyword self) lines = true /\
   products <> [] /\
   run_once self world clock image text lines fs =
   match visit_all self world image (seq 0 (length products)) st0 with
   | (Returns _, st) => (Returns (deref st), st)
   | (Raises e, st) => (Raises e, st)
   end).
Proof.
  intros products st0. unfold run_once.
  destruct lines as [|line0 rest]; [left; split; [by left | done]|].
  destruct (check_trigger _ _) eqn:Htrigger; cbn [negb].
  - fold products. fold st0.
    destruct products as [|first others] eqn:Hproducts.
    + left. split; [right; by right | done].
    + right. rewrite <- Hproducts.
      repeat split; try done. by rewrite Hproducts.
  - left. split; [right; by left | done].
Qed.

(** ** The same labels seen again *)

Section Extract_rekey.
Context `{Unicode}.

(** The records of two calls on the same lines differ only in the text
    and the clock readings. *)
Lemma extract_rekey (clock clock' : Clock) (text text' : str) (lines : list str) :
  extract_all_products clock' text' lines =
  List.map (fun info => new_product clock' text' (product_id info) (serial_number info))
           (extract_all_products clock text lines).
Proof.
  unfold extract_all_products.
  assert (Himap : forall serials (ids : list (list N)) (f : nat -> nat),
            imap (fun i pid => new_product clock' text' pid (serial_at serials (f i))) ids
            = List.map (fun info => new_product clock' text' (product_id info)
                                                (serial_number info))
                (imap (fun i pid => new_product clock text pid
                                      (serial_at serials (f i))) ids)).
  { intros serials ids. induction ids as [|pid ids IH]; intros f; [done|].
    cbn [imap List.map]. f_equal. apply (IH (fun i => f (S i))). }
  destruct (unique_ids lines) as [|pid ids].
  - destruct (unique_serials lines) as [|s serials]; [done|].
    cbn [imap app]. by rewrite List.map_map.
  - rewrite <- (Himap _ _ (fun i => i)). by destruct (unique_serials lines).
Qed.

End Extract_rekey.

Section SeenAgain.
Context `{Unicode}.
Context {Image : Type}.
Variable self : Monitor Image.
Variable world : World.
Hypothesis supported_format :
  img_format self = cp "png" \/ img_format self = cp "jpg".
Hypothesis digits_are_legal : forall c, isdigit c = true -> legal c.
Hypothesis mkdir_works : forall p, mkdir_fails world p = false.
Hypothesis encoder_writes : forall p, imwrite world p = Written.

Lemma is_duplicate_key (fs : gset Path) (a b : ProductInfo) :
  product_id a = product_id b -> serial_number a = serial_number b ->
  label_date a = label_date b ->
  is_duplicate self fs a = is_duplicate self fs b.
Proof.
  intros Hid Hserial Hdate. unfold is_duplicate, date_folder.
  by rewrite Hid, Hserial, Hdate.
Qed.

Lemma written_is_duplicate (fs : gset Path) (info : ProductInfo) :
  Forall legal (serial_number info) ->
  path_exists fs (save_path self info) = true ->
  is_duplicate self fs info = true.
Proof.
  intros Hlegal Hexists. unfold is_duplicate. apply orb_true_iff.
  destruct supported_format as [Hf|Hf];
    rewrite (save_path_supported self info _ Hf) in Hexists
      by (done || by repeat constructor); [by right | by left].
Qed.

Lemma visit_written (image : Image) (i : nat) (st : Cycle) :
  all_written self st -> all_written self (snd (visit self world image i st)).
Proof.
  intros Hall. unfold visit.
  destruct (objects st !! i) as [info|] eqn:Hi; [|done].
  destruct (is_duplicate self (tree st) info); [done|].
  unfold save_screenshot. cbn [tree objects saved_products].
  rewrite mkdir_works, encoder_writes. cbn [snd].
  intros k o Hk Hlook. cbn [tree objects saved_products] in *.
  rewrite list_insert_insert_eq in Hlook.
  unfold path_exists. apply bool_decide_eq_true.
  destruct (decide (k = i)) as [->|Hne].
  - rewrite list_lookup_insert_eq in Hlook by (by eapply lookup_lt_Some).
    injection Hlook as <-. apply elem_of_union_r, elem_of_singleton. reflexivity.
  - rewrite list_lookup_insert_ne in Hlook by done.
    apply elem_of_app in Hk as [Hk|Hk];
      [|apply list_elem_of_singleton in Hk; congruence].
    specialize (Hall k o Hk Hlook). unfold path_exists in Hall.
    apply bool_decide_eq_true in Hall. by apply elem_of_union_l, elem_of_union_l.
Qed.

Lemma visit_all_written (image : Image) (indices : list nat) :
  forall st, all_written self st ->
             all_written self (snd (visit_all self world image indices st)).
Proof.
  induction indices as [|i rest IH]; intros st Hall; cbn [visit_all]; [done|].
  pose proof (visit_written image i st Hall) as Hstep.
  destruct (visit self world image i st) as [[[]|e] st1]; cbn [snd] in *;
    [by apply IH | done].
Qed.

Lemma visit_all_duplicates (image : Image) (indices : list nat) (st : Cycle) :
  (forall i o, i ∈ indices -> objects st !! i = Some o ->
     is_duplicate self (tree st) o = true) ->
  visit_all self world image indices st = (Returns tt, st).
Proof.
  induction indices as [|i rest IH]; intros Hdup; cbn [visit_all]; [done|].
  assert (Hvisit : visit self world image i st = (Returns tt, st)).
  { unfold visit. destruct (objects st !! i) as [o|] eqn:Hi; [|done].
    rewrite (Hdup i o); [done | left | done]. }
  rewrite Hvisit. apply IH. intros k o Hk. apply Hdup. by right.
Qed.

(** After a cycle every extracted record is a duplicate. *)
Lemma cycle_leaves_duplicates (clock : Clock) (image : Image) (text : str)
    (lines : list str) (fs : gset Path) (info : ProductInfo) :
  lines <> [] -> check_trigger (trigger_keyword self) lines = true ->
  info ∈ extract_all_products clock text lines ->
  is_duplicate self
    (tree (snd (run_once self world clock image text lines fs))) info = true.
Proof.
  intros Hlines Htrigger Hin.
  assert (Hlegal : Forall legal (serial_number info))
    by (by eapply extracted_serial_legal).
  apply list_elem_of_lookup in Hin as [i Hi].
  set (products := extract_all_products clock text lines) in *.
  set (st0 := {| tree := fs; objects := products; saved_products := [] |}).
  assert (Hrun : run_once self world clock image text lines fs =
            match visit_all self world image (seq 0 (length products)) st0 with
            | (Returns _, st) => (Returns (deref st), st)
            | (Raises e, st) => (Raises e, st)
            end).
  { unfold run_once. destruct lines as [|l ls]; [done|].
    rewrite Htrigger. cbn [negb]. fold products. fold st0.
    destruct products as [|first others] eqn:Hp; [done|]. by rewrite <- Hp. }
  assert (Hnever : forall p, imwrite world p <> EncodeError)
    by (intros p; by rewrite encoder_writes).
  destruct (visit_all_processed self world image (seq 0 (length products))
              mkdir_works Hnever st0) as (st1 & Hall & Hdone).
  assert (Hwritten : all_written self st1).
  { pose proof (visit_all_written image (seq 0 (length products)) st0) as Hw.
    rewrite Hall in Hw. apply Hw. intros k o Hk. by apply elem_of_nil in Hk. }
  pose proof (visit_all_evolves self world image (seq 0 (length products)) st0)
    as (_ & _ & Hobjs).
  rewrite Hall in Hobjs. cbn [snd] in Hobjs.
  rewrite Hrun, Hall. cbn [snd].
  assert (Hi_seq : i ∈ seq 0 (length products)).
  { apply elem_of_seq. apply lookup_lt_Some in Hi. lia. }
  destruct (Hdone i info Hi_seq Hi) as [Hsaved|Hdup]; [|done].
  destruct (Hobjs i info Hi) as (o & Ho & Hcore).
  rewrite (is_duplicate_core self _ _ _ Hcore).
  apply written_is_duplicate; [|by apply (Hwritten i)].
  destruct Hcore as (_ & <- & _). done.
Qed.

(** After a cycle, a second pass over the same lines on the same date in
    any tree that holds the first one's finds only duplicates. *)
Lemma seen_again (clock clock' : Clock) (image image' : Image)
    (text text' : str) (lines : list str) (fs fs' : gset Path) :
  now_date clock' = now_date clock ->
  tree (snd (run_once self world clock image text lines fs)) ⊆ fs' ->
  fst (run_once self world clock' image' text' lines fs') = Returns [] /\
  tree (snd (run_once self world clock' image' text' lines fs')) = fs'.
Proof.
  intros Hdate Hsub.
  destruct (run_once_reason self world clock' image' text' lines fs')
    as [[_ ->]|(Hlines & Htrigger & _ & ->)]; [done|].
  rewrite visit_all_duplicates; [done|].
  cbn [objects tree]. intros i o _ Ho.
  rewrite (extract_rekey clock clock' text text' lines) in Ho.
  change (List.map ?f ?l) with (f <$> l) in Ho. rewrite list_lookup_fmap in Ho.
  destruct (extract_all_products clock text lines !! i) as [info|] eqn:Hinfo;
    [|done].
  cbn in Ho. injection Ho as <-.
  assert (Hin : info ∈ extract_all_products clock text lines)
    by (apply list_elem_of_lookup; eauto).
  rewrite (is_duplicate_key fs' _ info); cbn [product_id serial_number label_date
                                               new_product]; try done.
  - eapply is_duplicate_mono; [exact Hsub|]. by apply cycle_leaves_duplicates.
  - rewrite Hdate.
    by apply extract_elem in Hin as [(j & pid & _ & ->)|(_ & s & _ & ->)].
Qed.

Variable Score : Type.
Variable above_threshold : Score -> bool.

(** X14.  With a supported format, digits that need no sanitizing and
    collaborators that work, the labels of a frame recognized again on the
    same date are all duplicates: the second cycle returns the empty list
    and adds nothing to the directory tree but what the write of its
    recognition log adds. *)
Theorem second_cycle_saves_nothing (how how' : logging) (day day' : str)
    (clock clock' : Clock) (image image' : Image)
    (result result' : option (list (OcrItem Score))) (fs : gset Path) :
  now_date clock' = now_date clock ->
  snd (do_ocr Score above_threshold result')
    = snd (do_ocr Score above_threshold result) ->
  let first := run_once_logged self world Score above_threshold how day clock
                               image result fs in
  let second := run_once_logged self world Score above_threshold how' day' clock'
                                image' result' (tree (snd first)) in
  fst second = Returns [] /\
  tree (snd second) = save_ocr_log how' day' (tree (snd first)).
Proof.
  intros Hdate Hlines first second. subst second first.
  unfold run_once_logged. rewrite Hlines.
  apply (seen_again clock clock' image image'
           (fst (do_ocr Score above_threshold result)) _ _
           (save_ocr_log how day fs)); [exact Hdate|].
  apply save_ocr_log_adds.
Qed.

End SeenAgain.

Lemma second_cycle_saves_nothing_witness :
  let result := Some [{| rec_texts := Some [cp "fafa"; cp "ID: 41"; cp "mtk 2532"];
                         rec_scores := Some [9; 8; 7]%nat |}] in
  let first := run_once_logged (sample_monitor "png") kind_world nat
                 (fun score => (3 <? score)%nat) LogWritten (cp "20251117")
                 sample_clock tt result ∅ in
  fst (run_once_logged (sample_monitor "png") kind_world nat
         (fun score => (3 <? score)%nat) LogWritten (cp "20251117")
         sample_clock tt result (tree (snd first))) = Returns [].
Proof.
  intros result first.
  apply (proj1 (@second_cycle_saves_nothing ascii_tables unit
                  (sample_monitor "png") kind_world
                  (or_introl eq_refl) digit_legal
                  (fun _ => eq_refl) (fun _ => eq_refl)
                  nat (fun score => (3 <? score)%nat)
                  LogWritten LogWritten (cp "20251117") (cp "20251117")
                  sample_clock sample_clock tt tt result result ∅
                  eq_refl eq_refl)).
Defined.

(** ** The optional classifier *)

Section Classifier.
Context `{Unicode}.
Context {Image : Type}.
Variable self : Monitor Image.
Variable world : World.

Lemma twin_save_path (a b : ProductInfo) :
  twin a b -> save_path (without_classifier self) b = save_path self a /\
              date_folder (without_classifier self) b = date_folder self a.
Proof.
  intros [(Hid & Hserial & Hdate & _) _].
  unfold save_path, date_folder, img_format. cbn [storage_format save_dir
    without_classifier]. by rewrite Hid, Hserial, Hdate.
Qed.

Lemma twin_is_duplicate (fs : gset Path) (a b : ProductInfo) :
  twin a b ->
  is_duplicate (without_classifier self) fs b = is_duplicate self fs a.
Proof.
  intros [(Hid & Hserial & Hdate & _) _].
  unfold is_duplicate, date_folder. cbn [save_dir without_classifier].
  by rewrite Hid, Hserial, Hdate.
Qed.

Lemma twin_classify (image : Image) (a b : ProductInfo) :
  twin a b -> twin (classify self image a) b.
Proof.
  intros [Hcore Hpath].
  destruct (classify_core self image a) as (Hc & Hp & _). split.
  - eapply same_core_trans; [|exact Hcore].
    destruct Hc as (?&?&?&?&?). repeat split; congruence.
  - congruence.
Qed.

Lemma visit_twins (image : Image) (i : nat) (st st' : Cycle) :
  twins st st' ->
  fst (visit self world image i st)
    = fst (visit (without_classifier self) world image i st') /\
  twins (snd (visit self world image i st))
        (snd (visit (without_classifier self) world image i st')).
Proof.
  intros (Htree & Hsaved & Hobjs). unfold visit.
  destruct (objects st !! i) as [a|] eqn:Ha.
  - destruct (Forall2_lookup_l _ _ _ _ _ Hobjs Ha) as (b & Hb & Hab).
    rewrite Hb, <- Htree, (twin_is_duplicate _ a b Hab).
    destruct (is_duplicate self (tree st) a); [by repeat split|].
    assert (Hnone : classify (without_classifier self) image b = b) by done.
    rewrite Hnone. cbn [tree objects saved_products].
    pose proof (twin_classify image a b Hab) as Hcb.
    destruct (twin_save_path _ _ Hcb) as [Hpath Hfolder].
    unfold save_screenshot. rewrite Hpath, Hfolder.
    destruct (mkdir_fails world (date_folder self (classify self image a))).
    + cbn [fst snd]. split; [done|]. split; [done|]. split; [done|].
      cbn [objects]. by apply Forall2_insert.
    + destruct (imwrite world (save_path self (classify self image a)));
        cbn [fst snd]; (split; [done|]); (split; [by cbn; rewrite Htree|]);
        (split; [by cbn; rewrite Hsaved|]); cbn [objects];
        repeat apply Forall2_insert; try done.
      all: destruct Hcb as [Hc _]; split; [|done].
      all: destruct Hc as (?&?&?&?&?); by repeat split.
  - assert (Hb : objects st' !! i = None).
    { apply lookup_ge_None. rewrite <- (Forall2_length _ _ _ Hobjs).
      by apply lookup_ge_None. }
    rewrite Hb. by repeat split.
Qed.

Lemma visit_all_twins (image : Image) (indices : list nat) :
  forall st st', twins st st' ->
    fst (visit_all self world image indices st)
      = fst (visit_all (without_classifier self) world image indices st') /\
    twins (snd (visit_all self world image indices st))
          (snd (visit_all (without_classifier self) world image indices st')).
Proof.
  induction indices as [|i rest IH]; intros st st' Htw; cbn [visit_all]; [done|].
  destruct (visit_twins image i st st' Htw) as [Hfst Hsnd].
  destruct (visit self world image i st) as [[[]|e] st1];
    destruct (visit (without_classifier self) world image i st') as [[[]|e'] st1'];
    cbn [fst snd] in *; try done.
  by apply IH.
Qed.

Lemma deref_twins (st st' : Cycle) :
  twins st st' -> Forall2 twin (deref st) (deref st').
Proof.
  intros (_ & Hsaved & Hobjs). unfold deref. rewrite <- Hsaved. clear Hsaved.
  induction (saved_products st) as [|k ks IH]; [constructor|].
  cbn [omap list_omap].
  destruct (objects st !! k) as [a|] eqn:Ha.
  - destruct (Forall2_lookup_l _ _ _ _ _ Hobjs Ha) as (b & -> & Hab).
    constructor; [exact Hab | exact IH].
  - assert (Hb : objects st' !! k = None).
    { apply lookup_ge_None. rewrite <- (Forall2_length _ _ _ Hobjs).
      by apply lookup_ge_None. }
    by rewrite Hb.
Qed.

(** X15.  Attaching a classifier changes nothing but [style_category]: the
    same files are written, the same records are listed, the same
    exception (if any) leaves the cycle, and the returned records have the
    same creation fields and [filepath] as without a classifier. *)
Theorem classifier_changes_only_the_style (clock : Clock) (image : Image)
    (text : str) (lines : list str) (fs : gset Path) :
  let r := run_once self world clock image text lines fs in
  let r0 := run_once (without_classifier self) world clock image text lines fs in
  tree (snd r) = tree (snd r0) /\
  saved_products (snd r) = saved_products (snd r0) /\
  match fst r, fst r0 with
  | Returns results, Returns results0 => Forall2 twin results results0
  | Raises e, Raises e0 => e = e0
  | _, _ => False
  end.
Proof.
  intros r r0. subst r r0. unfold run_once.
  cbn [trigger_keyword without_classifier].
  destruct lines as [|l ls]; [by repeat split; constructor|].
  destruct (check_trigger (trigger_keyword self) (l :: ls)); cbn [negb];
    [|by repeat split; constructor].
  set (products := extract_all_products clock text (l :: ls)).
  destruct products as [|first others] eqn:Hp; [by repeat split; constructor|].
  rewrite <- Hp.
  set (st0 := {| tree := fs; objects := products; saved_products := [] |}).
  assert (Hinit : twins st0 st0).
  { split; [done|]. split; [done|]. apply Forall_Forall2_diag, Forall_forall.
    intros o _. split; [apply same_core_refl | done]. }
  destruct (visit_all_twins image (seq 0 (length products)) st0 st0 Hinit)
    as [Hfst Hsnd].
  destruct (visit_all self world image (seq 0 (length products)) st0)
    as [[[]|e] st1];
    destruct (visit_all (without_classifier self) world image
                (seq 0 (length products)) st0) as [[[]|e0] st1'];
    cbn [fst snd] in *; try done.
  - destruct Hsnd as (Ht & Hs & Ho). split; [done|]. split; [done|].
    by apply deref_twins.
  - destruct Hsnd as (Ht & Hs & Ho). split; [done|]. split; [done|]. congruence.
Qed.

End Classifier.

(** ** The counters of the monitoring loop *)

Lemma total_insert (ids : gmap (list N) Z) (k : list N) (n : Z) :
  total (<[k := n]> ids)
  = total ids - (match ids !! k with Some m => m | None => 0 end) + n.
Proof.
  unfold total. destruct (ids !! k) as [m|] eqn:Hk.
  - rewrite (map_fold_delete_L _ _ k m ids); [|intros; lia | done].
    rewrite <- (insert_delete_eq ids).
    rewrite map_fold_insert_L; [lia | intros; lia | apply lookup_delete_eq].
  - rewrite map_fold_insert_L; [lia | intros; lia | done].
Qed.

Lemma count_ids_total (results : list ProductInfo) :
  forall ids, total (count_ids results ids) = total ids + len results.
Proof.
  unfold count_ids, len.
  induction results as [|info results IH]; intros ids; cbn [fold_left length].
  - lia.
  - rewrite IH, total_insert. destruct (ids !! product_id info); lia.
Qed.

Section RunFacts.
Context `{Unicode}.
Context {Image : Type}.
Variable self : Monitor Image.
Variable world : World.

Lemma run_turn_inv (fs : gset Path) (turns : Z) (st : Run) (frame : Frame Image) :
  run_inv fs turns st -> run_inv fs (turns + 1) (run_turn self world st frame).
Proof.
  intros (Hcount & Hsaved & Hpos & Hdisk). unfold run_turn.
  destruct frame as [clock image text lines|e].
  - pose proof (run_once_inv self world clock image text lines (disk st))
      as (Hsub & _).
    destruct (run_once self world clock image text lines (disk st))
      as [[results|e] cycle]; cbn [snd] in Hsub;
      (split; [cbn; lia|]); cbn [saved_count saved_ids disk].
    + rewrite count_ids_total. unfold len.
      split; [lia|]. split; [lia|]. set_solver.
    + split; [done|]. split; [done|]. set_solver.
  - by repeat split; cbn; try lia.
Qed.

Lemma run_turns_inv (frames : list (Frame Image)) :
  forall fs turns st,
    run_inv fs turns st ->
    run_inv fs (turns + len frames) (fold_left (run_turn self world) frames st).
Proof.
  unfold len.
  induction frames as [|frame frames IH]; intros fs turns st Hinv;
    cbn [fold_left length].
  - by rewrite Z.add_0_r.
  - replace (turns + Z.of_nat (S (length frames)))
      with ((turns + 1) + Z.of_nat (length frames)) by lia.
    apply IH. by apply run_turn_inv.
Qed.

(** X16.  After any number of turns of the monitoring loop, [count] is the
    number of turns, [saved_count] is the sum of the per-ID counts in
    [saved_ids], and the loop has removed nothing from the directory tree;
    this holds whatever cycles raised, since a cycle that raises only
    advances [count]. *)
Theorem run_counters_agree (frames : list (Frame Image)) (fs : gset Path) :
  let st := run self world frames fs in
  count st = len frames /\
  saved_count st = total (saved_ids st) /\
  0 <= saved_count st /\
  fs ⊆ disk st.
Proof.
  intros st. subst st. unfold run.
  apply (run_turns_inv frames fs 0).
  repeat split; cbn; try done. 
Qed.

End RunFacts.

(** ** Durations *)

Ltac div_mod := Z.div_mod_to_equations; lia.

Lemma timedelta_in_range (n : Z) :
  -86400 * 999999999 <= n < 86400 * 1000000000 ->
  timedelta_seconds n = Some (n / 86400, n mod 86400).
Proof.
  intros Hn. unfold timedelta_seconds.
  destruct (Z.leb_spec (-999999999) (n / 86400)); [|div_mod].
  destruct (Z.leb_spec (n / 86400) 999999999); [done | div_mod].
Qed.

(** X17.  A duration is written with its largest non-zero unit first:
    seconds alone below one minute; minutes and seconds below one hour;
    hours, minutes and seconds below one day; days, hours, minutes and
    seconds from one day on.  The parts are the quotients and remainders
    of the number of seconds by 86400, 3600 and 60. *)
Theorem format_duration_units (n : Z) :
  let seconds := decimal (n mod 60) ++ word_seconds in
  let minutes := decimal (n mod 3600 / 60) ++ word_minutes ++ cp " " ++ seconds in
  let hours := decimal (n mod 86400 / 3600) ++ word_hours ++ cp " " ++ minutes in
  (0 <= n < 60 -> format_duration n = Some (decimal n ++ word_seconds)) /\
  (60 <= n < 3600 -> format_duration n = Some minutes) /\
  (3600 <= n < 86400 -> format_duration n = Some hours) /\
  (86400 <= n < 86400 * 1000000000 ->
   format_duration n = Some (decimal (n / 86400) ++ word_days ++ cp " " ++ hours)).
Proof.
  intros seconds minutes hours. subst seconds minutes hours.
  assert (Hsecs : n mod 86400 mod 3600 mod 60 = n mod 60) by div_mod.
  assert (Hmins : n mod 86400 mod 3600 / 60 = n mod 3600 / 60) by div_mod.
  repeat split; intros Hn; unfold format_duration;
    rewrite timedelta_in_range by lia; rewrite Hsecs, Hmins.
  - destruct (Z.ltb_spec 0 (n / 86400)); [div_mod|].
    destruct (Z.ltb_spec 0 (n mod 86400 / 3600)); [div_mod|].
    destruct (Z.ltb_spec 0 (n mod 3600 / 60)); [div_mod|].
    by rewrite Z.mod_small by lia.
  - destruct (Z.ltb_spec 0 (n / 86400)); [div_mod|].
    destruct (Z.ltb_spec 0 (n mod 86400 / 3600)); [div_mod|].
    destruct (Z.ltb_spec 0 (n mod 3600 / 60)); [done | div_mod].
  - destruct (Z.ltb_spec 0 (n / 86400)); [div_mod|].
    destruct (Z.ltb_spec 0 (n mod 86400 / 3600)); [done | div_mod].
  - destruct (Z.ltb_spec 0 (n / 86400)); [done | div_mod].
Qed.

Lemma format_duration_units_witness :
  format_duration 3725 =
  Some (decimal 1 ++ word_hours ++ cp " " ++ decimal 2 ++ word_minutes ++ cp " " ++
        decimal 5 ++ word_seconds).
Proof.
  apply (proj1 (proj2 (proj2 (format_duration_units 3725)))). lia.
Defined.

(** X18.  A negative number of seconds (the clock went back) is written as
    its remainder modulo one day, without a day part; and a number of
    seconds of a thousand million days or more is an overflow error. *)
Theorem format_duration_edges (n : Z) :
  (-86400 * 999999999 <= n < 0 ->
   format_duration n = format_duration (n mod 86400)) /\
  (86400 * 1000000000 <= n -> format_duration n = None).
Proof.
  split; intros Hn; unfold format_duration.
  - rewrite !timedelta_in_range by div_mod.
    rewrite Z.mod_mod by lia.
    destruct (Z.ltb_spec 0 (n / 86400)); [div_mod|].
    destruct (Z.ltb_spec 0 (n mod 86400 / 86400)); [div_mod | done].
  - unfold timedelta_seconds.
    destruct (Z.leb_spec (n / 86400) 999999999); [div_mod|].
    by rewrite andb_false_r.
Qed.

Lemma format_duration_edges_witness :
  format_duration (-5) = format_duration 86395.
Proof. apply (proj1 (format_duration_edges (-5))). lia. Defined.

(** ** Distinct labels, distinct files *)

Section DistinctFiles.
Context `{Unicode}.
Context {Image : Type}.
Variable self : Monitor Image.
Hypothesis digits_are_legal : forall c, isdigit c = true -> legal c.

Lemma legal_no_slash (s : str) : Forall legal s -> Forall (fun c => c <> slash) s.
Proof. intros Hs. eapply Forall_impl; [exact Hs|]. intros c. apply legal_not_slash. Qed.

Lemma extracted_id_legal (clock : Clock) (text : str) (lines : list str)
    (info : ProductInfo) :
  info ∈ extract_all_products clock text lines -> Forall legal (product_id info).
Proof.
  intros Hin.
  apply extract_elem in Hin as [(i & pid & Hi & ->)|(_ & s & _ & ->)];
    cbn [product_id new_product]; [|apply unknown_legal].
  assert (Hpid : pid ∈ unique_ids lines) by (apply list_elem_of_lookup; eauto).
  apply unique_ids_digits in Hpid as [_ Hdigits].
  apply Forall_forall. intros c Hc. apply digits_are_legal.
  rewrite forallb_forall in Hdigits. by apply Hdigits, list_elem_of_In.
Qed.

Lemma extracted_serial_nonempty (clock : Clock) (text : str) (lines : list str)
    (info : ProductInfo) :
  info ∈ extract_all_products clock text lines -> serial_number info <> [].
Proof.
  intros Hin.
  assert (Hnumber : forall s, s ∈ unique_serials lines -> s <> []).
  { intros s Hs. apply unique_serials_elem in Hs as [[[Hlen _] _] _].
    intros ->. simpl in Hlen. lia. }
  apply extract_elem in Hin as [(i & pid & _ & ->)|(_ & s & Hs & ->)];
    cbn [serial_number new_product]; [|by apply Hnumber].
  unfold serial_at. destruct (unique_serials lines !! i) as [s|] eqn:Hs; [|done].
  apply Hnumber, list_elem_of_lookup. eauto.
Qed.

Lemma keep_long (w : str) : (2 <= length w)%nat -> keep_part w = true.
Proof.
  intros Hlen. apply negb_true_iff, bool_decide_eq_false.
  intros [->| ->]; simpl in Hlen; lia.
Qed.

(** The parts of the save path of an extracted record. *)
Lemma extracted_save_parts (clock : Clock) (text : str) (lines : list str)
    (info : ProductInfo) :
  Forall (fun c => c <> slash) (now_date clock) ->
  info ∈ extract_all_products clock text lines ->
  parts (save_path self info) =
  parts (save_dir self) ++
  (cp "ID_" ++ product_id info) ::
  (if keep_part (now_date clock) then [now_date clock] else []) ++
  [serial_number info ++ sanitize (cp "." ++ img_format self)].
Proof.
  intros Hdate Hin.
  assert (Hid : Forall legal (product_id info)) by (by eapply extracted_id_legal).
  assert (Hserial : Forall legal (serial_number info))
    by (by eapply extracted_serial_legal).
  assert (Hne : serial_number info <> []) by (by eapply extracted_serial_nonempty).
  assert (Hlabel : label_date info = now_date clock)
    by (by apply extract_elem in Hin as [(j & pid & _ & ->)|(_ & s & _ & ->)]).
  destruct (save_path_parts self info) as [_ ->].
  rewrite sanitize_app, (sanitize_id _ Hserial).
  rewrite keep_long.
  2: { rewrite length_app, sanitize_app, length_app. cbn.
       destruct (serial_number info); [done | simpl; lia]. }
  unfold date_folder. rewrite Hlabel.
  assert (Hfolder : Forall (fun c => c <> slash) (cp "ID_" ++ product_id info)).
  { apply Forall_app. split; [repeat constructor; discriminate|].
    by apply legal_no_slash. }
  rewrite (path_join_no_slash _ _ Hdate), (path_join_no_slash _ _ Hfolder).
  cbn [parts]. rewrite keep_long by (rewrite length_app; simpl; lia).
  by rewrite <- !app_assoc.
Qed.

(** X19.  With digits that need no sanitizing and a date without a slash,
    two different records of one call are never saved to the same path. *)
Theorem distinct_records_distinct_files (clock : Clock) (text : str)
    (lines : list str) (a b : ProductInfo) :
  Forall (fun c => c <> slash) (now_date clock) ->
  a ∈ extract_all_products clock text lines ->
  b ∈ extract_all_products clock text lines ->
  save_path self a = save_path self b ->
  a = b.
Proof.
  intros Hdate Ha Hb Hpath.
  assert (Hparts : parts (save_path self a) = parts (save_path self b))
    by (by rewrite Hpath).
  rewrite (extracted_save_parts clock text lines a Hdate Ha) in Hparts.
  rewrite (extracted_save_parts clock text lines b Hdate Hb) in Hparts.
  apply app_inv_head in Hparts. injection Hparts as Hid Hrest.
  apply app_inv_head in Hrest.
  injection Hrest as Hserial. apply app_inv_tail in Hserial.
  apply extract_elem in Ha as [(i & pa & _ & ->)|(_ & sa & _ & ->)];
    apply extract_elem in Hb as [(j & pb & _ & ->)|(_ & sb & _ & ->)];
    cbn [product_id serial_number new_product] in *; congruence.
Qed.

End DistinctFiles.

Lemma distinct_records_distinct_files_witness :
  let a := new_product sample_clock [] (cp "41") (cp "100") in
  a ∈ extract_all_products sample_clock [] two_labels /\
  match extract_all_products sample_clock [] two_labels !! 0%nat with
  | Some b => a = b
  | None => False
  end.
Proof.
  intros a.
  assert (Hin : a ∈ extract_all_products sample_clock [] two_labels)
    by (vm_compute; left).
  split; [exact Hin|].
  apply (@distinct_records_distinct_files ascii_tables unit (sample_monitor "png")
           digit_legal sample_clock [] two_labels a a).
  - repeat constructor; discriminate.
  - exact Hin.
  - exact Hin.
  - reflexivity.
Defined.

Lemma records_share_the_frame_witness :
  let info := new_product sample_clock (cp "fafa") (cp "41") (cp "2532") in
  info ∈ extract_all_products sample_clock (cp "fafa") [cp "ID: 41"; cp "mtk 2532"] /\
  label_date info = now_date sample_clock /\
  raw_text info = cp "fafa".
Proof.
  intros info.
  assert (Hin : info ∈ extract_all_products sample_clock (cp "fafa")
                         [cp "ID: 41"; cp "mtk 2532"]) by (vm_compute; left).
  split; [exact Hin|].
  destruct (records_share_the_frame sample_clock (cp "fafa")
              [cp "ID: 41"; cp "mtk 2532"] info Hin) as (Hdate & Htext & _).
  split; [exact Hdate | exact Htext].
Defined.

Lemma no_marker_no_serial_witness :
  extract_all_products sample_clock [] [cp "ID: 5"]
  = [new_product sample_clock [] (cp "5") unknown].
Proof.
  assert (Hno : forall line kw, line ∈ [cp "ID: 5"] -> kw ∈ serial_keywords ->
                 str_in kw (lower line) = false).
  { intros line kw Hline Hkw. apply list_elem_of_singleton in Hline as ->.
    unfold serial_keywords in Hkw.
    apply elem_of_cons in Hkw as [->|Hkw]; [reflexivity|].
    apply list_elem_of_singleton in Hkw as ->. reflexivity. }
  exact (proj2 (no_marker_no_serial sample_clock [] [cp "ID: 5"] Hno)).
Defined.
